(** * The pyclaw Controller: output scheduling and run orchestration

    A shallow embedding of [src/pyclaw/controller.py].  The method
    [Controller.run] is written in a small state-and-exception monad over a
    [World] that holds the controller object, the part of the file system the
    controller looks at, and the chronological trace of the calls it makes on
    its collaborators (solver, solution, persistence backend, gauge streams).

    Conventions.
    - A Python float (a time, a functional value) is the rational it
      denotes, in [Qc].  The controller compares floats and passes them on;
      it does no arithmetic on them.
    - Python ints are [Z].
    - The solver, the solution's state class and [numpy.linspace] live
      outside this file; what they compute is a parameter ([SolverAPI]). *)

From stdpp Require Import base numbers option list strings pretty gmap.
From Stdlib Require Import QArith Qcanon Ascii.

Local Open Scope Z_scope.

(** ** numpy helpers used by [run] *)

Module Np.

(** [Z] as a rational. *)
Definition of_Z (z : Z) : Qc := Q2Qc (inject_Z z).

(** [numpy.ones(n)]: [n] entries equal to one; a negative dimension is a
    [ValueError], reported here as [None]. *)
Definition ones (n : Z) : option (list Qc) :=
  if n <? 0 then None else Some (replicate (Z.to_nat n) (of_Z 1)).

End Np.

(** ** Exceptions raised by, or propagated through, the controller *)

Inductive exn : Type :=
| NoSolverOrSolution
    (* 'To run, a Controller must have a Solver and a Solution.' *)
| NoSolver                       (* 'No solver set in controller.' *)
| SolverWrongType                (* 'Solver is not of correct type.' *)
| SolverInvalid (reason : string)
    (* 'The solver failed to initialize properly because ' + reason *)
| SolutionInvalid                (* 'Initial solution is not valid.' *)
| StatesInvalid                  (* 'Initial states are not valid.' *)
| InvalidOutputStyle (style : Z) (* 'Invalid output style %s' *)
| RefuseOverwrite                (* 'Refusing to overwrite existing output data. ...' *)
| AttributeError                 (* attribute access on None *)
| IOError (path : string)        (* open: No such file or directory *)
| ValueError                     (* numpy: negative dimensions are not allowed *)
| UnboundLocalError (name : string)
    (* a NameError: local variable referenced before assignment *)
| SolverFailure (msg : string).  (* raised inside solver.evolve_to_time *)

(** Result of a call: a value, or a raised exception. *)
Inductive res (A : Type) : Type :=
| Val (a : A)
| Raised (e : exn).
Arguments Val {A} a.
Arguments Raised {A} e.

(** Mode argument of [open]. *)
Inductive Mode : Type := Truncate (* 'w' *) | Append (* 'a' *).

(** One line of the functional log: [str(t) + ' ' + ' '.join(str(j) for j in F)]. *)
Record FLine : Type := { fl_time : Qc; fl_values : list Qc }.

(** Keyword arguments of one [solution.write(...)] call. *)
Record WriteCall : Type := {
  wc_frame : Z;
  wc_path : string;
  wc_file_prefix : option string;
  wc_io_handler : string;
  wc_file_format : string;
  wc_clobber : bool;
  wc_write_aux : bool;
  wc_write_p : bool;
  wc_options : list (string * string)
}.

(** Handle of an open gauge stream. *)
Definition gfile : Type := nat.

(** ** os.path *)

Module OsPath.

Fixpoint ends_with_sep (a : string) : bool :=
  match a with
  | EmptyString => false
  | String c EmptyString => if decide (c = "/"%char) then true else false
  | String _ rest => ends_with_sep rest
  end.

Definition is_abs (b : string) : bool :=
  match b with
  | String c _ => if decide (c = "/"%char) then true else false
  | EmptyString => false
  end.

(** [os.path.join(a, b)] on POSIX. *)
Definition join (a b : string) : string :=
  if is_abs b then b
  else if decide (a = EmptyString) then b
  else if ends_with_sep a then (a +:+ b)%string
  else (a +:+ "/" +:+ b)%string.

Definition is_sep (c : ascii) : bool := if decide (c = "/"%char) then true else false.

(** [l] without its longest prefix of characters satisfying [P]. *)
Fixpoint skip (P : ascii -> bool) (l : list ascii) : list ascii :=
  match l with
  | c :: l' => if P c then skip P l' else l
  | [] => []
  end.

(** [head.rstrip('/')] unless [head] is empty or made of separators only,
    on the characters of [head] in reverse order. *)
Definition rstrip_rev (head : list ascii) : list ascii :=
  if forallb is_sep head then head else skip is_sep head.

(** [os.path.dirname(p)] on POSIX: [head = p[:p.rfind('/') + 1]], without
    its trailing separators.  The characters are processed from the end
    of [p]. *)
Definition dirname (p : string) : string :=
  let head := skip (fun c => negb (is_sep c)) (rev (String.list_ascii_of_string p)) in
  String.string_of_list_ascii (rev (rstrip_rev head)).

(** A name without its trailing separators: [out/] and [out] name the
    same directory. *)
Definition bare (p : string) : string :=
  String.string_of_list_ascii (rev (rstrip_rev (rev (String.list_ascii_of_string p)))).

End OsPath.

(** ** FrameCounter

    Modelled from the spec: the class [FrameCounter] of [pyclaw.util] is not
    part of the sources at hand.  "[set_counter(n)] seeds the counter;
    [increment()] advances by one". *)
Module FrameCounter.
Record t : Type := mk { counter : Z }.
Definition new : t := mk 0.
Definition set_counter (n : Z) (_ : t) : t := mk n.
Definition increment (f : t) : t := mk (counter f + 1).
End FrameCounter.

Section Model.

(** Solver status dictionaries, the arrays of a state, and the private
    data of a solver are opaque. *)
Context {Status Payload SolverSt : Type}.

(** *** Data of the collaborators *)

Record State : Type := {
  st_valid : bool;          (* state.is_valid() *)
  mF : nat;                 (* number of functionals *)
  st_data : Payload         (* q, p, F, aux *)
}.

Record Solution : Type := {
  sol_t : Qc;                     (* solution.t *)
  sol_start_frame : Z;            (* solution.start_frame / _start_frame *)
  sol_valid : bool;               (* solution.is_valid() *)
  sol_state : State;              (* solution.state = solution.states[0] *)
  sol_more_states : list State;   (* solution.states[1:] *)
  gauges : list nat;              (* grid.gauges *)
  gauge_files : list gfile        (* grid.gauge_files *)
}.

Definition states (s : Solution) : list State := sol_state s :: sol_more_states s.

Record Solver : Type := {
  is_Solver : bool;        (* isinstance(solver, Solver) *)
  is_set_up : bool;        (* solver._is_set_up *)
  dt : Qc;
  dt_initial : Qc;
  solver_data : SolverSt
}.

(** What the code outside the controller computes. *)
Record SolverAPI : Type := {
  (* numpy.linspace(start, stop, num): the array of floats it returns, or
     the exception it raises *)
  linspace : Qc -> Qc -> Z -> res (list Qc);
  (* solver.is_valid() -> (valid, reason) *)
  is_valid : Solver -> bool * string;
  (* solver.setup(solution) *)
  setup : Solver -> Solution -> Solver;
  (* solver.evolve_to_time(solution, tend): the status it returns and the
     solver and solution it leaves behind, or the exception it raises *)
  evolve_to_time : Solver -> Solution -> option Qc -> exn + (Status * Solver * Solution);
  (* state.sum_F(i) *)
  sum_F : State -> nat -> Qc
}.

(** *** The controller object

    The attributes that [run] only reads are grouped in [Settings]; the
    four it assigns ([start_frame], [frames], and the objects behind
    [solution] and [solver]) are the remaining fields of [Controller]. *)

Record Settings : Type := {
  outdir : string;
  overwrite : bool;
  keep_copy : bool;
  write_aux_init : bool;
  write_aux_always : bool;
  output_handler : option string;
  output_format : option string;
  output_file_prefix : option string;
  output_clobber : bool;
  output_options : list (string * string);
  tfinal : Qc;
  output_style : Z;
  num_output_times : Z;
  out_times : list Qc;
  nstepout : Z;
  file_prefix_p : string;
  compute_p : option (State -> State);
  compute_F : option (State -> State);
  F_file_name : string
}.

Record Controller : Type := {
  settings :> Settings;
  start_frame : Z;
  solution : option Solution;
  solver : option Solver;
  frames : list Solution
}.

(** *** Calls observed on the collaborators, in program order *)

Inductive Event : Type :=
| EvSetupGaugeFiles (dir : string) (opened : list gfile)
| EvSolverSetup
| EvWriteGaugeValues
| EvPrint (msg : string)
| EvKeepCopy
| EvComputeP
| EvWrite (call : WriteCall)
| EvComputeF
| EvWriteF (path : string) (mode : Mode) (line : FLine)
| EvLogInfo (frame : Z) (time : Qc)
| EvEvolve (tend : option Qc) (outcome : exn + Status)
| EvIncrement
| EvFlush (f : gfile)
| EvClose (f : gfile).

Record World : Type := {
  self : Controller;
  fs_exists : gset string;               (* paths for which os.path.exists holds *)
  fs_text : gmap string (list FLine);    (* contents of the text files written *)
  trace : list Event
}.

(** *** The monad of controller methods *)

Definition M (A : Type) : Type := World -> res A * World.

Definition ret {A} (a : A) : M A := fun w => (Val a, w).
Definition bind {A B} (m : M A) (f : A -> M B) : M B := fun w =>
  match m w with
  | (Val a, w') => f a w'
  | (Raised e, w') => (Raised e, w')
  end.

Declare Scope M_scope.
Notation "x ← y ; z" := (bind y (fun x => z))
  (at level 20, y at level 100, z at level 200, only parsing) : M_scope.
Notation "y ;; z" := (bind y (fun _ => z))
  (at level 100, z at level 200, only parsing, right associativity) : M_scope.
Local Open Scope M_scope.

Definition raise {A} (e : exn) : M A := fun w => (Raised e, w).
Definition get_self : M Controller := fun w => (Val (self w), w).
Definition put_self (c : Controller) : M unit := fun w =>
  (Val (), {| self := c; fs_exists := fs_exists w; fs_text := fs_text w; trace := trace w |}).
Definition emit (e : Event) : M unit := fun w =>
  (Val (), {| self := self w; fs_exists := fs_exists w; fs_text := fs_text w;
              trace := trace w ++ [e] |}).
Definition when (b : bool) (m : M unit) : M unit := if b then m else ret ().

(** [for x in l: acc = body(x, acc)] *)
Fixpoint for_each {A S : Type} (l : list A) (body : A -> S -> M S) (acc : S) : M S :=
  match l with
  | [] => ret acc
  | x :: l' => acc' ← body x acc; for_each l' body acc'
  end.

(** *** Attribute assignment *)

Definition set_start_frame (n : Z) (c : Controller) : Controller :=
  {| settings := settings c; start_frame := n; solution := solution c;
     solver := solver c; frames := frames c |}.

Definition set_solution (s : option Solution) (c : Controller) : Controller :=
  {| settings := settings c; start_frame := start_frame c; solution := s;
     solver := solver c; frames := frames c |}.

Definition set_solver (s : option Solver) (c : Controller) : Controller :=
  {| settings := settings c; start_frame := start_frame c; solution := solution c;
     solver := s; frames := frames c |}.

Definition set_frames (l : list Solution) (c : Controller) : Controller :=
  {| settings := settings c; start_frame := start_frame c; solution := solution c;
     solver := solver c; frames := l |}.

Definition set_gauge_files (l : list gfile) (s : Solution) : Solution :=
  {| sol_t := sol_t s; sol_start_frame := sol_start_frame s; sol_valid := sol_valid s;
     sol_state := sol_state s; sol_more_states := sol_more_states s;
     gauges := gauges s; gauge_files := l |}.

Definition set_sol_state (st : State) (s : Solution) : Solution :=
  {| sol_t := sol_t s; sol_start_frame := sol_start_frame s; sol_valid := sol_valid s;
     sol_state := st; sol_more_states := sol_more_states s;
     gauges := gauges s; gauge_files := gauge_files s |}.

Definition set_sol_start_frame (n : Z) (s : Solution) : Solution :=
  {| sol_t := sol_t s; sol_start_frame := n; sol_valid := sol_valid s;
     sol_state := sol_state s; sol_more_states := sol_more_states s;
     gauges := gauges s; gauge_files := gauge_files s |}.

Definition set_is_set_up (b : bool) (s : Solver) : Solver :=
  {| is_Solver := is_Solver s; is_set_up := b; dt := dt s;
     dt_initial := dt_initial s; solver_data := solver_data s |}.

Definition set_dt (x : Qc) (s : Solver) : Solver :=
  {| is_Solver := is_Solver s; is_set_up := is_set_up s; dt := x;
     dt_initial := dt_initial s; solver_data := solver_data s |}.

(** [self.solution] and [self.solver], dereferenced. *)
Definition the_solution : M Solution :=
  c ← get_self;
  match solution c with Some s => ret s | None => raise AttributeError end.

Definition the_solver : M Solver :=
  c ← get_self;
  match solver c with Some s => ret s | None => raise AttributeError end.

Definition put_solution (s : Solution) : M unit :=
  c ← get_self; put_self (set_solution (Some s) c).

Definition put_solver (s : Solver) : M unit :=
  c ← get_self; put_self (set_solver (Some s) c).

(** *** The file system seen by the controller

    [fs_exists] holds the names under which files and directories are
    found; [fs_text] holds the lines of the text files the controller
    itself writes, which are those of the functional log.  What the
    persistence backend and the gauge streams put on disk is theirs. *)

(** [os.path.exists(path)] *)
Definition path_exists (path : string) : M bool := fun w =>
  (Val (bool_decide (path ∈ fs_exists w)), w).

Definition create_path (path : string) : M unit := fun w =>
  (Val (), {| self := self w; fs_exists := {[path]} ∪ fs_exists w;
              fs_text := fs_text w; trace := trace w |}).

(** [open(path, 'w')] and [open(path, 'a')] create the file when it is
    missing, never its directory: the directory named by [path] has to be
    among the existing names (trailing separators aside), or [path] names
    none and the file is in the working directory. *)
Definition openable (w : World) (path : string) : bool :=
  bool_decide (OsPath.dirname path = EmptyString)
  || bool_decide (OsPath.dirname path ∈ (set_map OsPath.bare (fs_exists w) : gset string)).

(** [f = open(path, mode); f.write(line + '\n'); f.close()]; [open] raises
    [IOError] (errno 2) when the directory is missing, and nothing is
    written then. *)
Definition write_line (path : string) (mode : Mode) (line : FLine) : M unit := fun w =>
  if openable w path then
    let old := match mode with
               | Truncate => []
               | Append => default [] (fs_text w !! path)
               end in
    (Val (), {| self := self w; fs_exists := {[path]} ∪ fs_exists w;
                fs_text := <[path := old ++ [line]]> (fs_text w);
                trace := trace w ++ [EvWriteF path mode line] |})
  else (Raised (IOError path), w).

(** *** Properties of [Controller] *)

(** lines 73-76 *)
Definition outdir_p (c : Settings) : string := OsPath.join (outdir c) "_p".

(** lines 77-80 *)
Definition F_path (c : Settings) : string :=
  OsPath.join (outdir c) (F_file_name c +:+ ".txt").

Variable api : SolverAPI.

(** *** [check_validity] (lines 221-239) *)
Definition check_validity : M unit :=
  c ← get_self;
  match solver c with
  | None => raise NoSolver
  | Some s =>
      if negb (is_Solver s) then raise SolverWrongType
      else
        let '(valid, reason) := is_valid api s in
        if negb valid then raise (SolverInvalid reason)
        else
          sol ← the_solution;
          if negb (sol_valid sol) then raise SolutionInvalid
          else if negb (forallb st_valid (states sol)) then raise StatesInvalid
          else ret ()
  end.

(** *** Calls on the collaborators *)

(** [grid.setup_gauge_files(outdir)].

    Modelled from the spec: the grid class is not part of the sources at
    hand.  "An output file per gauge is opened before the first evolution
    step (path derived from the output directory)": one fresh stream per
    declared gauge becomes the grid's [gauge_files], under [dir], which
    exists afterwards. *)
Definition setup_gauge_files (dir : string) : M unit :=
  sol ← the_solution;
  let opened := seq 0 (length (gauges sol)) in
  put_solution (set_gauge_files opened sol);;
  create_path dir;;
  emit (EvSetupGaugeFiles dir opened).

(** [self.solver.setup(self.solution)]; the solver records that it is set
    up (the guard of line 308 reads that flag). *)
Definition solver_setup : M unit :=
  s ← the_solver;
  sol ← the_solution;
  put_solver (set_is_set_up true (setup api s sol));;
  emit EvSolverSetup.

(** [self.solver.write_gauge_values(self.solution)] *)
Definition write_gauge_values : M unit := emit EvWriteGaugeValues.

(** [status = self.solver.evolve_to_time(self.solution, tend)] *)
Definition evolve (tend : option Qc) : M Status :=
  s ← the_solver;
  sol ← the_solution;
  match evolve_to_time api s sol tend with
  | inl e => emit (EvEvolve tend (inl e));; raise e
  | inr (st, s', sol') =>
      put_solver s';; put_solution sol';;
      emit (EvEvolve tend (inr st));;
      ret st
  end.

(** [self.compute_p(self.solution.state)]: the callback rewrites the state. *)
Definition call_compute_p (f : State -> State) : M unit :=
  sol ← the_solution;
  put_solution (set_sol_state (f (sol_state sol)) sol);;
  emit EvComputeP.

(** [self.solution.write(frame=..., path=..., ...)]: the persistence
    backend is opaque, the call is recorded. *)
Definition solution_write (call : WriteCall) : M unit := emit (EvWrite call).

(** [self.frames.append(copy.deepcopy(self.solution))] *)
Definition keep_frame : M unit :=
  sol ← the_solution;
  c ← get_self;
  put_self (set_frames (frames c ++ [sol]) c);;
  emit EvKeepCopy.

(** lines 436-437 *)
Definition is_proc_0 : bool := true.

(** lines 439-440, applied to
    ["Solution %s computed for time t=%f" % (frame, self.solution.t)] *)
Definition log_info (frame : FrameCounter.t) : M unit :=
  sol ← the_solution;
  emit (EvLogInfo (FrameCounter.counter frame) (sol_t sol)).

(** *** [write_F] (lines 424-434) *)
Definition write_F (mode : Mode) : M unit :=
  c ← get_self;
  match compute_F c with
  | None => ret ()
  | Some f =>
      sol ← the_solution;
      put_solution (set_sol_state (f (sol_state sol)) sol);;
      emit EvComputeF;;
      sol ← the_solution;
      let F := map (sum_F api (sol_state sol)) (seq 0 (mF (sol_state sol))) in
      when is_proc_0
        (write_line (F_path c) mode {| fl_time := sol_t sol; fl_values := F |})
  end.

(** *** [run] (lines 281-420) *)

(** Lines 317-327: the target times of the active output style. *)
Definition output_times_of (c : Controller) (sol : Solution) : res (list Qc) :=
  if decide (output_style c = 1) then
    linspace api (sol_t sol) (tfinal c) (num_output_times c + 1)
  else if decide (output_style c = 2) then Val (out_times c)
  else if decide (output_style c = 3) then
    match Np.ones (num_output_times c + 1 - start_frame c) with
    | Some l => Val l
    | None => Raised ValueError
    end
  else Raised (InvalidOutputStyle (output_style c)).

Definition compute_output_times : M (list Qc) :=
  c ← get_self;
  sol ← the_solution;
  match output_times_of c sol with
  | Val l => ret l
  | Raised e => raise e
  end.

(** [self.output_handler == None or self.output_format == None] *)
Definition output_disabled (c : Settings) : bool :=
  match output_handler c, output_format c with
  | Some _, Some _ => false
  | _, _ => true
  end.

(** The common keyword arguments of the [solution.write] calls. *)
Definition write_call (c : Settings) (frame : FrameCounter.t) (path : string)
    (prefix : option string) (write_aux write_p : bool) : WriteCall :=
  {| wc_frame := FrameCounter.counter frame;
     wc_path := path;
     wc_file_prefix := prefix;
     wc_io_handler := default EmptyString (output_handler c);
     wc_file_format := default EmptyString (output_format c);
     wc_clobber := output_clobber c;
     wc_write_aux := write_aux;
     wc_write_p := write_p;
     wc_options := output_options c |}.

(** Lines 335-371: output and save the initial frame. *)
Definition initial_output (frame : FrameCounter.t) : M unit :=
  c ← get_self;
  when (keep_copy c) keep_frame;;
  (if output_disabled c then ret ()
   else
     existing ← path_exists (outdir c);
     if existing && negb (output_clobber c) then raise RefuseOverwrite
     else
       match compute_p c with
       | Some f =>
           call_compute_p f;;
           solution_write
             (write_call c frame (outdir_p c) (Some (file_prefix_p c)) false true)
       | None => ret ()
       end;;
       let write_aux := write_aux_always c || write_aux_init c in
       solution_write
         (write_call c frame (outdir c) (output_file_prefix c) write_aux false));;
  write_F Truncate;;
  log_info frame.

(** Lines 374-379: one evolution to the next target.  [status] is the
    local variable of that name: [None] while it is unbound. *)
Definition advance (t : Qc) (status : option Status) : M (option Status) :=
  c ← get_self;
  if output_style c <? 3 then
    st ← evolve (Some t); ret (Some st)
  else
    for_each (seq 0 (Z.to_nat (nstepout c)))
      (fun _ _ => st ← evolve None; ret (Some st)) status.

(** Lines 381-413: retain, write and log the frame just computed, then
    flush the gauge streams. *)
Definition save_frame (frame : FrameCounter.t) : M unit :=
  c ← get_self;
  when (keep_copy c) keep_frame;;
  (if output_disabled c then ret ()
   else
     match compute_p c with
     | Some f =>
         call_compute_p f;;
         solution_write
           (write_call c frame (outdir c) (Some (file_prefix_p c)) false true)
     | None => ret ()
     end;;
     solution_write
       (write_call c frame (outdir c) (output_file_prefix c) (write_aux_always c) false));;
  write_F Append;;
  log_info frame;;
  sol ← the_solution;
  for_each (gauge_files sol) (fun g _ => emit (EvFlush g)) ().

(** Lines 373-413: the body of [for t in output_times[1:]]. *)
Definition output_step (t : Qc) (acc : FrameCounter.t * option Status)
    : M (FrameCounter.t * option Status) :=
  status ← advance t (snd acc);
  let frame := FrameCounter.increment (fst acc) in
  emit EvIncrement;;
  save_frame frame;;
  ret (frame, status).

(** Lines 415-420: close the gauge streams, record the restart frame,
    return the status. *)
Definition finish (status : option Status) : M (option Status) :=
  sol ← the_solution;
  for_each (gauge_files sol) (fun g _ => emit (EvClose g)) ();;
  sol ← the_solution;
  c ← get_self;
  put_solution (set_sol_start_frame (Z.of_nat (length (frames c))) sol);;
  match status with
  | Some st => ret (Some st)
  | None => raise (UnboundLocalError "status")
  end.

(** Lines 298-315: everything before the output times are computed. *)
Definition prepare : M FrameCounter.t :=
  c ← get_self;
  if bool_decide (solver c = None) || bool_decide (solution c = None)
  then raise NoSolverOrSolution
  else
    sol ← the_solution;
    put_self (set_start_frame (sol_start_frame sol) c);;
    when (0 <? Z.of_nat (length (gauges sol))) (setup_gauge_files (outdir c));;
    c ← get_self;
    let frame := FrameCounter.set_counter (start_frame c) FrameCounter.new in
    s ← the_solver;
    when (negb (is_set_up s))
      (solver_setup;;
       s ← the_solver;
       put_solver (set_dt (dt_initial s) s));;
    check_validity;;
    write_gauge_values;;
    ret frame.

(** Lines 329-333: [None] is returned when there is no output time. *)
Definition halt : M (option Status) :=
  emit (EvPrint "No valid output times; halting.");;
  c ← get_self;
  sol ← the_solution;
  when (bool_decide (sol_t sol = tfinal c))
    (emit (EvPrint "Simulation has already reached tfinal."));;
  ret None.

Definition run : M (option Status) :=
  frame ← prepare;
  output_times ← compute_output_times;
  if bool_decide (length output_times = 0%nat) then halt
  else
    initial_output frame;;
    acc ← for_each (tail output_times) output_step (frame, None);
    finish (snd acc).

(** *** What [run] finds at its entry *)

(** The solution after lines 302-303. *)
Definition prepared_solution (sol : Solution) : Solution :=
  if 0 <? Z.of_nat (length (gauges sol))
  then set_gauge_files (seq 0 (length (gauges sol))) sol
  else sol.

(** The solver after lines 308-310. *)
Definition prepared_solver (s : Solver) (sol : Solution) : Solver :=
  if is_set_up s then s
  else
    let s' := set_is_set_up true (setup api s (prepared_solution sol)) in
    set_dt (dt_initial s') s'.

(** The checks of [check_validity] all pass. *)
Definition valid_pair (s : Solver) (sol : Solution) : bool :=
  is_Solver s && (is_valid api s).1 && sol_valid sol
  && forallb st_valid (states sol).

(** Solver and solution pass line 312. *)
Definition ready (s : Solver) (sol : Solution) : bool :=
  valid_pair (prepared_solver s sol) (prepared_solution sol).

(** The output times computed at lines 317-327 for a controller whose
    solution is [sol] ([self.start_frame] was assigned at line 301). *)
Definition schedule (c : Controller) (sol : Solution) : res (list Qc) :=
  output_times_of (set_start_frame (sol_start_frame sol) c) sol.

(** The condition of line 342, as it evaluates in a run from world [w]
    with solution [sol]. *)
Definition conflict (w : World) (sol : Solution) : bool :=
  (bool_decide (outdir (self w) ∈ fs_exists w) || (0 <? Z.of_nat (length (gauges sol))))
  && negb (output_clobber (self w)).

(** Line 432 finds the directory of the functional log, in the run from
    world [w] with solution [sol] that calls [write_F]: there is no
    functional, or the log can be opened in [w], or its directory is the
    output directory and line 303 has set up the gauge files there. *)
Definition log_ready (w : World) (sol : Solution) : bool :=
  match compute_F (self w) with
  | None => true
  | Some _ =>
      openable w (F_path (self w))
      || (0 <? Z.of_nat (length (gauges sol)))
         && bool_decide (OsPath.dirname (F_path (self w)) = OsPath.bare (outdir (self w)))
  end.

(** The events of lines 301-315 when the checks pass. *)
Definition entry_events (c : Controller) (s : Solver) (sol : Solution) : list Event :=
  (if 0 <? Z.of_nat (length (gauges sol))
   then [EvSetupGaugeFiles (outdir c) (seq 0 (length (gauges sol)))] else [])
  ++ (if is_set_up s then [] else [EvSolverSetup]).

(** *** Observations on a trace *)

(** The statuses returned by the evolution calls, in order. *)
Definition statuses (tr : list Event) : list Status :=
  omap (fun e => match e with EvEvolve _ (inr st) => Some st | _ => None end) tr.

(** The streams closed, in order. *)
Definition closed (tr : list Event) : list gfile :=
  omap (fun e => match e with EvClose g => Some g | _ => None end) tr.

(** The [solution.write] calls, in order. *)
Definition writes (tr : list Event) : list WriteCall :=
  omap (fun e => match e with EvWrite c => Some c | _ => None end) tr.

(** Frame and directory of the derived-quantity snapshots ([write_p=True])
    and of the main snapshots written, in order. *)
Definition derived_paths (tr : list Event) : list (Z * string) :=
  omap (fun e => match e with
                 | EvWrite c => if wc_write_p c then Some (wc_frame c, wc_path c) else None
                 | _ => None
                 end) tr.

Definition main_paths (tr : list Event) : list (Z * string) :=
  omap (fun e => match e with
                 | EvWrite c => if wc_write_p c then None else Some (wc_frame c, wc_path c)
                 | _ => None
                 end) tr.

(** An output point has been produced when its progress line is logged. *)
Definition is_output_point (e : Event) : bool :=
  match e with EvLogInfo _ _ => true | _ => false end.

(** Main or derived snapshots and functional-log lines. *)
Definition is_output (e : Event) : bool :=
  match e with EvWrite _ | EvWriteF _ _ _ => true | _ => false end.

(** What an empty schedule must not cause: output, a retained snapshot, a
    frame advance, an evolution. *)
Definition is_progress (e : Event) : bool :=
  match e with
  | EvWrite _ | EvWriteF _ _ _ | EvKeepCopy | EvIncrement | EvEvolve _ _
  | EvComputeP | EvComputeF | EvLogInfo _ _ => true
  | _ => false
  end.

(** Every output point of [tr] is directly followed by a flush of each
    stream of [gfs]. *)
Fixpoint flushed_after (gfs : list gfile) (tr : list Event) : Prop :=
  match tr with
  | [] => True
  | e :: rest =>
      (is_output_point e = true -> exists rest', rest = map EvFlush gfs ++ rest')
      /\ flushed_after gfs rest
  end.

(** The same for every output point but the first one of [tr]. *)
Fixpoint flushed_after_first (gfs : list gfile) (tr : list Event) : Prop :=
  match tr with
  | [] => True
  | e :: rest =>
      if is_output_point e then flushed_after gfs rest
      else flushed_after_first gfs rest
  end.

(** The exceptions raised by failed evolution calls, in order. *)
Definition failures (tr : list Event) : list exn :=
  omap (fun e => match e with EvEvolve _ (inl x) => Some x | _ => None end) tr.

(** The lines written to the functional log, in order. *)
Definition flines (tr : list Event) : list FLine :=
  omap (fun e => match e with EvWriteF _ _ l => Some l | _ => None end) tr.

(** The value of the local variable [status] after the calls of [tr], when
    it was [st0] before them. *)
Definition status_after (st0 : option Status) (tr : list Event) : option Status :=
  match last (statuses tr) with
  | Some st => Some st
  | None => st0
  end.

(** Retaining, deriving and persisting a snapshot. *)
Definition is_snapshot (e : Event) : bool :=
  match e with EvKeepCopy | EvComputeP | EvWrite _ => true | _ => false end.

(** Evolution calls. *)
Definition is_evolve (e : Event) : bool :=
  match e with EvEvolve _ _ => true | _ => false end.

(** The calls of a run that ends before its initial output point is
    complete. *)
Definition early_event (e : Event) : bool :=
  match e with
  | EvSetupGaugeFiles _ _ | EvSolverSetup | EvWriteGaugeValues | EvPrint _
  | EvKeepCopy | EvComputeP | EvWrite _ | EvComputeF => true
  | _ => false
  end.

(** The calls of lines 374-380: evolving and advancing the frame counter. *)
Definition is_step (e : Event) : bool :=
  match e with EvEvolve _ _ | EvIncrement => true | _ => false end.

(** The calls the initial output point can make before its progress line,
    when the functional log is the file [Fp]. *)
Definition init_event (Fp : string) (e : Event) : bool :=
  match e with
  | EvKeepCopy | EvComputeP | EvWrite _ | EvComputeF => true
  | EvWriteF p Truncate _ => bool_decide (p = Fp)
  | _ => false
  end.

(** The calls [run] can make before the loop. *)
Definition before_loop (Fp : string) (e : Event) : bool :=
  match e with
  | EvSetupGaugeFiles _ _ | EvSolverSetup | EvWriteGaugeValues | EvLogInfo _ _ => true
  | _ => init_event Fp e
  end.

(** The calls the loop of lines 373-413 can make. *)
Definition loop_event (Fp : string) (e : Event) : bool :=
  match e with
  | EvKeepCopy | EvComputeP | EvWrite _ | EvComputeF | EvLogInfo _ _ | EvFlush _
  | EvEvolve _ _ | EvIncrement => true
  | EvWriteF p Append _ => bool_decide (p = Fp)
  | _ => false
  end.

(** *** Assumptions on the solver that some statements need *)

(** The evolution leaves the grid's gauge streams in place. *)
Definition keeps_gauge_files : Prop :=
  forall s sol tend st s' sol',
    evolve_to_time api s sol tend = inr (st, s', sol') ->
    gauge_files sol' = gauge_files sol.

(** Each pass through lines 374-379 calls the solver at least once. *)
Definition productive (c : Settings) : Prop := output_style c < 3 \/ 1 <= nstepout c.

(** *** The worlds [run] goes through *)

(** The world after lines 301-310. *)
Definition set_up (w : World) (s : Solver) (sol : Solution) : World :=
  {| self := {| settings := settings (self w);
                start_frame := sol_start_frame sol;
                solution := Some (prepared_solution sol);
                solver := Some (prepared_solver s sol);
                frames := frames (self w) |};
     fs_exists := if 0 <? Z.of_nat (length (gauges sol))
                  then {[outdir (self w)]} ∪ fs_exists w else fs_exists w;
     fs_text := fs_text w;
     trace := trace w ++ entry_events (self w) s sol |}.

(** The world after line 315. *)
Definition entered (w : World) (s : Solver) (sol : Solution) : World :=
  {| self := self (set_up w s sol);
     fs_exists := fs_exists (set_up w s sol);
     fs_text := fs_text w;
     trace := trace w ++ entry_events (self w) s sol ++ [EvWriteGaugeValues] |}.

(** The exceptions of [check_validity] for a solver and a solution that are
    not [None]. *)
Definition validity_exn (e : exn) : Prop :=
  e = SolverWrongType \/ (exists r, e = SolverInvalid r) \/
  e = SolutionInvalid \/ e = StatesInvalid.

(** What holds of the controller between the statements of [run] once the
    entry checks have passed: the settings are [c], solver and solution are
    there, and the solution satisfies [G]. *)
Definition Inv (G : Solution -> Prop) (c : Settings) (w : World) : Prop :=
  settings (self w) = c /\
  exists s sol, solver (self w) = Some s /\ solution (self w) = Some sol /\ G sol.

(** [m] succeeds from every world satisfying [Inv], keeps [Inv], leaves the
    file system alone and makes calls in [P] only. *)
Definition stage (G : Solution -> Prop) (c : Settings) (P : Event -> bool) (m : M unit)
    : Prop :=
  forall w, Inv G c w ->
    exists evs w', m w = (Val (), w') /\ Inv G c w' /\
      trace w' = trace w ++ evs /\ forallb P evs = true /\
      fs_exists w' = fs_exists w /\ fs_text w' = fs_text w.

(** What one or more passes through the loop body leave behind, from world
    [w] with the local [status] at [st0], when they end in [out]: the calls
    made, the functional log, and, when no call raised, the new [status]
    (found by [status_of] in the value returned); when a call raised, an
    evolution failed or the functional log could not be opened.  [busy] is
    a condition under which the solver is called at least once. *)
Definition step_post {A} (G : Solution -> Prop) (c : Settings) (busy : Prop)
    (status_of : A -> option Status) (st0 : option Status)
    (w : World) (out : res A * World) : Prop :=
  exists evs,
    trace out.2 = trace w ++ evs /\
    forallb (loop_event (F_path c)) evs = true /\
    (forall gfs, (forall sol, G sol -> gauge_files sol = gfs) -> flushed_after gfs evs) /\
    (forall l0, fs_text w !! F_path c = Some l0 ->
                fs_text out.2 !! F_path c = Some (l0 ++ flines evs)) /\
    (openable w (F_path c) = true -> openable out.2 (F_path c) = true) /\
    match out.1 with
    | Val a =>
        Inv G c out.2 /\ failures evs = [] /\
        status_of a = status_after st0 evs /\
        (busy -> is_Some (status_of a))
    | Raised _ =>
        failures evs <> [] \/
        (compute_F c <> None /\ openable out.2 (F_path c) = false)
    end.

(** *** [load_frame] (lines 251-255) *)

(** [l[i]] on a Python list: a negative index counts from the end; [None]
    stands for [IndexError]. *)
Definition py_getitem {A} (l : list A) (i : Z) : option A :=
  let n := Z.of_nat (length l) in
  if 0 <=? i then l !! Z.to_nat i
  else if - n <=? i then l !! Z.to_nat (n + i)
  else None.

(** ["Cannot plot frame %s; only %s frames available" % (frame_number, n)] *)
Definition cannot_plot (frame_number n : Z) : string :=
  ("Cannot plot frame " +:+ pretty frame_number +:+ "; only " +:+ pretty n
   +:+ " frames available")%string.

Definition load_frame (frame_number : Z) : M (option Solution) :=
  c ← get_self;
  match py_getitem (frames c) frame_number with
  | Some f => ret (Some f)
  | None =>
      emit (EvPrint (cannot_plot frame_number (Z.of_nat (length (frames c)))));;
      ret None
  end.

(** *** More observations on a trace *)

(** The target times of the evolution calls, in order ([None]: no target). *)
Definition targets (tr : list Event) : list (option Qc) :=
  omap (fun e => match e with EvEvolve tend _ => Some tend | _ => None end) tr.

(** The frame numbers of the progress lines, in order. *)
Definition logged (tr : list Event) : list Z :=
  omap (fun e => match e with EvLogInfo k _ => Some k | _ => None end) tr.

(** What a call adds to the observations: evolution targets, logged frame
    numbers, retained frames, main snapshots, functional-log lines. *)
Record Delta : Type := {
  d_targets : list (option Qc);
  d_logged : list Z;
  d_frames : nat;
  d_main : list (Z * string);
  d_flines : nat
}.

Definition dzero : Delta :=
  {| d_targets := []; d_logged := []; d_frames := 0; d_main := []; d_flines := 0 |}.

Definition dplus (a b : Delta) : Delta :=
  {| d_targets := d_targets a ++ d_targets b;
     d_logged := d_logged a ++ d_logged b;
     d_frames := d_frames a + d_frames b;
     d_main := d_main a ++ d_main b;
     d_flines := d_flines a + d_flines b |}.

(** World [w'] shows, beyond world [w], exactly the additions [d]. *)
Definition moved (d : Delta) (w w' : World) : Prop :=
  targets (trace w') = targets (trace w) ++ d_targets d /\
  logged (trace w') = logged (trace w) ++ d_logged d /\
  length (frames (self w')) = (length (frames (self w)) + d_frames d)%nat /\
  main_paths (trace w') = main_paths (trace w) ++ d_main d /\
  length (flines (trace w')) = (length (flines (trace w)) + d_flines d)%nat.

(** Whenever [m] returns a value from a world with settings [c], the
    settings are kept and [R] relates the value and the two worlds. *)
Definition yields {A} (c : Settings) (m : M A) (R : A -> World -> World -> Prop) : Prop :=
  forall w a w', settings (self w) = c -> m w = (Val a, w') ->
    settings (self w') = c /\ R a w w'.

(** The additions of the call [e]. *)
Definition d_event (e : Event) : Delta :=
  {| d_targets := targets [e]; d_logged := logged [e]; d_frames := 0;
     d_main := main_paths [e]; d_flines := length (flines [e]) |}.

(** The additions of retaining [n] frames. *)
Definition d_retain (n : nat) : Delta :=
  {| d_targets := []; d_logged := []; d_frames := n; d_main := []; d_flines := 0 |}.

(** The additions of one output point with frame number [k]. *)
Definition d_point (c : Settings) (k : Z) : Delta :=
  {| d_targets := [];
     d_logged := [k];
     d_frames := if keep_copy c then 1 else 0;
     d_main := if output_disabled c then [] else [(k, outdir c)];
     d_flines := match compute_F c with Some _ => 1 | None => 0 end |}.

(** The targets of the evolution calls made to reach the output time [t]. *)
Definition d_advance (c : Settings) (t : Qc) : Delta :=
  {| d_targets := if output_style c <? 3 then [Some t]
                  else replicate (Z.to_nat (nstepout c)) None;
     d_logged := []; d_frames := 0; d_main := []; d_flines := 0 |}.

(** The additions of the loop over the output times [ts] when the frame
    counter stands at [k]. *)
Fixpoint d_loop (c : Settings) (k : Z) (ts : list Qc) : Delta :=
  match ts with
  | [] => dzero
  | t :: ts' => dplus (dplus (d_advance c t) (d_point c (k + 1))) (d_loop c (k + 1) ts')
  end.

(** The arguments of a [solution.write] call are those [run] derives from
    the settings [c]. *)
Definition write_conforms (c : Settings) (call : WriteCall) : bool :=
  bool_decide (wc_io_handler call = default EmptyString (output_handler c))
  && bool_decide (wc_file_format call = default EmptyString (output_format c))
  && bool_decide (wc_clobber call = output_clobber c)
  && bool_decide (wc_options call = output_options c)
  && if wc_write_p call
     then (bool_decide (wc_path call = outdir c) || bool_decide (wc_path call = outdir_p c))
          && bool_decide (wc_file_prefix call = Some (file_prefix_p c))
          && negb (wc_write_aux call)
     else bool_decide (wc_path call = outdir c)
          && bool_decide (wc_file_prefix call = output_file_prefix c).

(** The calls a controller with settings [c] can make in [run]. *)
Definition allowed (c : Settings) (e : Event) : bool :=
  match e with
  | EvSetupGaugeFiles d _ => bool_decide (d = outdir c)
  | EvSolverSetup | EvWriteGaugeValues | EvLogInfo _ _ | EvIncrement
  | EvFlush _ | EvClose _ => true
  | EvPrint msg =>
      bool_decide (msg = "No valid output times; halting."%string)
      || bool_decide (msg = "Simulation has already reached tfinal."%string)
  | EvKeepCopy => keep_copy c
  | EvComputeP =>
      negb (output_disabled c) && match compute_p c with Some _ => true | None => false end
  | EvWrite call => negb (output_disabled c) && write_conforms c call
  | EvComputeF => match compute_F c with Some _ => true | None => false end
  | EvWriteF p _ _ =>
      match compute_F c with Some _ => true | None => false end
      && bool_decide (p = F_path c)
  | EvEvolve tend _ =>
      if output_style c <? 3 then match tend with Some _ => true | None => false end
      else match tend with Some _ => false | None => true end
  end.

(** From every world with settings [c], whatever the outcome, [m] keeps
    the settings, only appends calls in [P] to the trace, retains a frame
    only if [keep_copy] is set and touches the text files only if
    [compute_F] is set. *)
Definition confined {A} (c : Settings) (P : Event -> bool) (m : M A) : Prop :=
  forall w, settings (self w) = c ->
    exists evs,
      trace (m w).2 = trace w ++ evs /\
      forallb P evs = true /\
      settings (self (m w).2) = c /\
      (keep_copy c = false -> frames (self (m w).2) = frames (self w)) /\
      (compute_F c = None -> fs_text (m w).2 = fs_text w).

End Model.

Arguments State : clear implicits.
Arguments Solution : clear implicits.
Arguments Solver : clear implicits.
Arguments SolverAPI : clear implicits.
Arguments Settings : clear implicits.
Arguments Controller : clear implicits.
Arguments Event : clear implicits.
Arguments World : clear implicits.

(** ** [Controller.__init__] (lines 85-200)

    The attributes [run] uses, with their default values; [cwd] is
    [os.getcwd()] and [out] is the array that
    [np.linspace(0.0, self.tfinal, self.num_output_times - self.start_frame)]
    returns at line 175.  A fresh controller has neither solver nor
    solution. *)
Definition default_settings {Payload : Type} (out : list Qc) (cwd : string)
    : Settings Payload :=
  {| outdir := (cwd +:+ "/_output")%string;
     overwrite := true;
     keep_copy := false;
     write_aux_init := false;
     write_aux_always := false;
     output_handler := Some "pyclaw"%string;
     output_format := Some "ascii"%string;
     output_file_prefix := None;
     output_clobber := true;
     output_options := [];
     tfinal := Np.of_Z 1;
     output_style := 1;
     num_output_times := 10;
     out_times := out;
     nstepout := 1;
     file_prefix_p := "claw_p"%string;
     compute_p := None;
     compute_F := None;
     F_file_name := "F"%string |}.

Definition init {Payload SolverSt : Type} (out : list Qc) (cwd : string)
    : Controller Payload SolverSt :=
  {| settings := default_settings out cwd;
     start_frame := 0;
     solution := None;
     solver := None;
     frames := [] |}.

(** ** A small concrete installation, used to run the model *)

Module Demo.

(** Statuses are step numbers, a state carries the number of evolutions
    it went through, the solver has no private data. *)
Abbreviation state := (State nat).
Abbreviation sol := (Solution nat).
Abbreviation slv := (Solver unit).
Abbreviation ctl := (Controller nat unit).
Abbreviation world := (World Z nat unit).

Definition bump (s : state) : state :=
  {| st_valid := st_valid s; mF := mF s; st_data := S (st_data s) |}.

(** Sample times for the examples: [num] times from [start] to [stop] at
    equal distances.  The examples ask for no time, for one, or for two
    intervals from 0 or 1/2 to 1: the samples 0, 1/2, 1 and 1/2, 3/4, 1
    are the floats [numpy.linspace] returns there. *)
Definition even_times (start stop : Qc) (num : Z) : list Qc :=
  if num <=? 0 then []
  else if num =? 1 then [start]
  else
    let step := ((stop - start) / Np.of_Z (num - 1))%Qc in
    map (fun i => (Np.of_Z (Z.of_nat i) * step + start)%Qc) (seq 0 (Z.to_nat (num - 1)))
    ++ [stop].

(** A solver that reaches the requested time (or advances by [dt] when no
    time is given) and reports the number of evolutions so far. *)
Definition steady : SolverAPI Z nat unit :=
  {| linspace := fun start stop num => Val (even_times start stop num);
     is_valid := fun s => (true, EmptyString);
     setup := fun s _ => s;
     evolve_to_time := fun s x tend =>
       let st := bump (sol_state x) in
       inr (Z.of_nat (st_data st), s,
            {| sol_t := match tend with Some t => t | None => (sol_t x + dt s)%Qc end;
               sol_start_frame := sol_start_frame x; sol_valid := sol_valid x;
               sol_state := st; sol_more_states := sol_more_states x;
               gauges := gauges x; gauge_files := gauge_files x |});
     sum_F := fun s i => Np.of_Z (Z.of_nat (i + 1)) |}.

(** A solver whose evolution always fails. *)
Definition broken : SolverAPI Z nat unit :=
  {| linspace := linspace steady;
     is_valid := is_valid steady;
     setup := setup steady;
     evolve_to_time := fun _ _ _ => inl (SolverFailure "blow-up");
     sum_F := sum_F steady |}.

(** A solver that reports itself invalid. *)
Definition invalid : SolverAPI Z nat unit :=
  {| linspace := linspace steady;
     is_valid := fun _ => (false, "no Riemann solver"%string);
     setup := setup steady;
     evolve_to_time := evolve_to_time steady;
     sum_F := sum_F steady |}.

Definition solver0 : slv :=
  {| is_Solver := true; is_set_up := false; dt := Np.of_Z 1;
     dt_initial := Q2Qc (1 # 10); solver_data := () |}.

(** A valid solution at time [t0], resuming at frame [k], with the given
    gauge locations. *)
Definition solution0 (t0 : Qc) (k : Z) (gs : list nat) : sol :=
  {| sol_t := t0; sol_start_frame := k; sol_valid := true;
     sol_state := {| st_valid := true; mF := 2; st_data := 0%nat |};
     sol_more_states := []; gauges := gs; gauge_files := [] |}.

(** The default controller with a solver, a solution and the settings
    that the examples vary: output count, clobber flag, whether output is
    enabled, and the two callbacks. *)
Definition controller (x : sol) (N : Z) (clobber output : bool)
    (p F : option (state -> state)) : ctl :=
  {| settings :=
       {| outdir := "/run/_output"%string;
          overwrite := true;
          keep_copy := false;
          write_aux_init := false;
          write_aux_always := false;
          output_handler := if output then Some "pyclaw"%string else None;
          output_format := Some "ascii"%string;
          output_file_prefix := None;
          output_clobber := clobber;
          output_options := [];
          tfinal := Np.of_Z 1;
          output_style := 1;
          num_output_times := N;
          out_times := [];
          nstepout := 1;
          file_prefix_p := "claw_p"%string;
          compute_p := p;
          compute_F := F;
          F_file_name := "F"%string |};
     start_frame := 0;
     solution := Some x;
     solver := Some solver0;
     frames := [] |}.

(** A world in which the paths [existing] exist and the text files
    [logs] have the given lines. *)
Definition world_of (c : ctl) (existing : list string)
    (logs : list (string * list FLine)) : world :=
  {| self := c; fs_exists := list_to_set existing;
     fs_text := list_to_map logs; trace := [] |}.

(** The worlds of the examples.  [plain N]: no gauge, nothing on disk,
    overwriting allowed. *)
Definition plain (N : Z) : world :=
  world_of (controller (solution0 (Np.of_Z 0) 0 []) N true true None None) [] [].

(** [guarded N]: the output directory is there and must not be overwritten. *)
Definition guarded (N : Z) : world :=
  world_of (controller (solution0 (Np.of_Z 0) 0 []) N false true None None)
    ["/run/_output"%string] [].

(** [fenced]: as [guarded 2], with two gauges. *)
Definition fenced : world :=
  world_of (controller (solution0 (Np.of_Z 0) 0 [7; 9]%nat) 2 false true None None)
    ["/run/_output"%string] [].

(** [silent]: as [guarded 2], with output disabled. *)
Definition silent : world :=
  world_of (controller (solution0 (Np.of_Z 0) 0 []) 2 false false None None)
    ["/run/_output"%string] [].

(** [unlogged N]: output disabled, a functional to log and no directory
    to log it in. *)
Definition unlogged (N : Z) : world :=
  world_of (controller (solution0 (Np.of_Z 0) 0 []) N true false None (Some bump)) [] [].

(** [gauged]: two gauges, both callbacks set, two output intervals. *)
Definition gauged : world :=
  world_of (controller (solution0 (Np.of_Z 0) 0 [7; 9]%nat) 2 true true
              (Some bump) (Some bump)) [] [].

(** Two lines of an earlier run in the functional log. *)
Definition old_log : list FLine :=
  [ {| fl_time := Np.of_Z 0; fl_values := [Np.of_Z 42] |};
    {| fl_time := Q2Qc (1 # 4); fl_values := [Np.of_Z 43] |} ].

(** [resumed]: a run taken up again at frame 2 and time 1/2, with the
    functional log of frames 0 and 1 on disk. *)
Definition resumed : world :=
  world_of (controller (solution0 (Q2Qc (1 # 2)) 2 []) 2 true true None (Some bump))
    ["/run/_output"%string; "/run/_output/F.txt"%string]
    [("/run/_output/F.txt"%string, old_log)].

(** A world without gauges and callbacks, output enabled, with the given
    output style, output count, step count and retention flag. *)
Definition styled (x : sol) (style N nstep : Z) (keep : bool) : world :=
  world_of
    {| settings :=
         {| outdir := "/run/_output"%string;
            overwrite := true;
            keep_copy := keep;
            write_aux_init := false;
            write_aux_always := false;
            output_handler := Some "pyclaw"%string;
            output_format := Some "ascii"%string;
            output_file_prefix := None;
            output_clobber := true;
            output_options := [];
            tfinal := Np.of_Z 1;
            output_style := style;
            num_output_times := N;
            out_times := [];
            nstepout := nstep;
            file_prefix_p := "claw_p"%string;
            compute_p := None;
            compute_F := None;
            F_file_name := "F"%string |};
       start_frame := 0;
       solution := Some x;
       solver := Some solver0;
       frames := [] |} [] [].

(** [keeping]: style 1 with two output intervals, frames retained. *)
Definition keeping : world := styled (solution0 (Np.of_Z 0) 0 []) 1 2 1 true.

(** [stepping]: style 3, two passes of two steps each. *)
Definition stepping : world := styled (solution0 (Np.of_Z 0) 0 []) 3 2 2 false.

(** [odd_style]: an output style that does not exist. *)
Definition odd_style : world := styled (solution0 (Np.of_Z 0) 0 []) 7 2 1 false.

End Demo.

(** * Proofs *)

(** ** The monad and the traces *)

Ltac mstep :=
  repeat progress
    (unfold bind, ret, raise, get_self, put_self, emit, when, the_solution, the_solver,
       put_solution, put_solver; simpl).

Section Traces.
Context {Status : Type}.
Implicit Types a b tr : list (Event Status).

Lemma statuses_app a b : statuses (a ++ b) = statuses a ++ statuses b.
Proof. apply omap_app. Qed.

Lemma closed_app a b : closed (a ++ b) = closed a ++ closed b.
Proof. apply omap_app. Qed.

Lemma failures_app a b : failures (a ++ b) = failures a ++ failures b.
Proof. apply omap_app. Qed.

Lemma flines_app a b : flines (a ++ b) = flines a ++ flines b.
Proof. apply omap_app. Qed.

Lemma closed_map_close (l : list gfile) : closed (Status:=Status) (map EvClose l) = l.
Proof. induction l as [|g l IH]; simpl; [done | by rewrite IH]. Qed.

Lemma statuses_map_close (l : list gfile) : statuses (Status:=Status) (map EvClose l) = [].
Proof. by induction l. Qed.

Lemma failures_map_close (l : list gfile) : failures (Status:=Status) (map EvClose l) = [].
Proof. by induction l. Qed.

Lemma flines_map_close (l : list gfile) : flines (Status:=Status) (map EvClose l) = [].
Proof. by induction l. Qed.

Lemma status_after_app (st0 : option Status) a b :
  status_after (status_after st0 a) b = status_after st0 (a ++ b).
Proof.
  unfold status_after. rewrite statuses_app.
  destruct (statuses b) as [|x l] eqn:Hb using rev_ind.
  - rewrite app_nil_r. simpl. by destruct (last (statuses a)).
  - clear IHl. by rewrite app_assoc, !last_snoc.
Qed.

Lemma status_after_some (st0 : option Status) tr :
  statuses tr <> [] -> exists st, status_after st0 tr = Some st /\ last (statuses tr) = Some st.
Proof.
  intros H. unfold status_after.
  destruct (statuses tr) as [|x l] using rev_ind; [done|].
  rewrite last_snoc. eauto.
Qed.

Lemma flushed_after_app gfs a b :
  flushed_after gfs a -> flushed_after gfs b -> flushed_after gfs (a ++ b).
Proof.
  intros Ha Hb. induction a as [|e a IH]; simpl in *; [done|].
  destruct Ha as [He Ha]. split; [|by apply IH].
  intros Hp. destruct (He Hp) as [r ->]. exists (r ++ b). by rewrite app_assoc.
Qed.

Lemma flushed_after_drop gfs (n : nat) tr :
  flushed_after gfs tr -> flushed_after gfs (drop n tr).
Proof.
  revert tr. induction n as [|n IH]; intros [|e tr]; simpl; try done.
  intros [_ H]. by apply IH.
Qed.

Lemma flushed_after_quiet gfs tr :
  forallb (fun e => negb (is_output_point e)) tr = true -> flushed_after gfs tr.
Proof.
  induction tr as [|e tr IH]; simpl; [done|].
  intros [He Htr]%andb_true_iff. split; [|by apply IH].
  intros Hp. by rewrite Hp in He.
Qed.

Lemma flushed_after_flushes gfs (l : list gfile) :
  flushed_after (Status:=Status) gfs (map EvFlush l).
Proof. apply flushed_after_quiet. by induction l. Qed.

Lemma flushed_after_first_quiet gfs a b :
  forallb (fun e => negb (is_output_point e)) a = true ->
  flushed_after_first gfs (a ++ b) = flushed_after_first gfs b.
Proof.
  induction a as [|e a IH]; simpl; [done|].
  intros [He Ha]%andb_true_iff. destruct (is_output_point e); [done | by apply IH].
Qed.

Lemma loop_event_flushes Fp (l : list gfile) :
  forallb (loop_event (Status:=Status) Fp) (map EvFlush l) = true.
Proof. by induction l. Qed.

Lemma flines_flushes (l : list gfile) : flines (Status:=Status) (map EvFlush l) = [].
Proof. by induction l. Qed.

Lemma failures_flushes (l : list gfile) : failures (Status:=Status) (map EvFlush l) = [].
Proof. by induction l. Qed.

Lemma statuses_flushes (l : list gfile) : statuses (Status:=Status) (map EvFlush l) = [].
Proof. by induction l. Qed.

Lemma forallb_map_all {X} (P : Event Status -> bool) (f : X -> Event Status) (l : list X) :
  (forall x, P (f x) = true) -> forallb P (map f l) = true.
Proof. intros H. induction l as [|x l IH]; simpl; [done | by rewrite H, IH]. Qed.

Lemma forallb_weaken (P Q : Event Status -> bool) tr :
  (forall e, P e = true -> Q e = true) -> forallb P tr = true -> forallb Q tr = true.
Proof.
  intros H. rewrite !forallb_forall. intros Hp e He. apply H, Hp, He.
Qed.

Lemma forallb_omap_nil {B} (P : Event Status -> bool) (f : Event Status -> option B) tr :
  (forall e, P e = true -> f e = None) -> forallb P tr = true -> omap f tr = [].
Proof.
  intros H. induction tr as [|e tr IH]; simpl; [done|].
  intros [He Htr]%andb_true_iff. rewrite (H e He). by apply IH.
Qed.
End Traces.

Section Entry.
Context {Status Payload SolverSt : Type}.
Variable api : SolverAPI Status Payload SolverSt.
Implicit Types w : World Status Payload SolverSt.

Lemma check_validity_ok w s sol :
  solver (self w) = Some s -> solution (self w) = Some sol ->
  valid_pair api s sol = true ->
  check_validity api w = (Val (), w).
Proof.
  intros Hs Hsol Hv. unfold check_validity. mstep. rewrite Hs.
  unfold valid_pair in Hv. rewrite !andb_true_iff in Hv.
  destruct Hv as [[[H1 H2] H3] H4]. rewrite H1. simpl.
  destruct (is_valid api s) as [v r]. simpl in H2. subst v. simpl.
  rewrite Hsol, H3. simpl. unfold states in H4. simpl in H4. by rewrite H4.
Qed.

Lemma check_validity_fails w s sol :
  solver (self w) = Some s -> solution (self w) = Some sol ->
  valid_pair api s sol = false ->
  exists e, check_validity api w = (Raised e, w) /\ validity_exn e.
Proof.
  intros Hs Hsol Hv. unfold check_validity, validity_exn. mstep. rewrite Hs.
  unfold valid_pair in Hv.
  destruct (is_Solver s); simpl in *; [|eauto].
  destruct (is_valid api s) as [[] r]; simpl in *; [|eauto 6].
  rewrite Hsol. destruct (sol_valid sol); simpl in *; [|eauto 6].
  unfold states in Hv. simpl in Hv. rewrite Hv. simpl. eauto 6.
Qed.

Lemma prepare_until_check w s sol :
  solver (self w) = Some s -> solution (self w) = Some sol ->
  prepare api w =
  bind (check_validity api)
    (fun _ => bind write_gauge_values
       (fun _ => ret (FrameCounter.mk (sol_start_frame sol)))) (set_up api w s sol).
Proof.
  destruct w as [[c sf so sv fr] ex tx tr]; simpl. intros -> ->.
  unfold set_up, entry_events, prepared_solver, prepared_solution.
  unfold prepare, setup_gauge_files, solver_setup, create_path. mstep.
  destruct (0 <? Z.of_nat (length (gauges sol))) eqn:Hg; simpl;
  destruct (is_set_up s) eqn:Hs; simpl; rewrite ?app_nil_r, <- ?app_assoc; reflexivity.
Qed.

Lemma prepare_ready w s sol :
  solver (self w) = Some s -> solution (self w) = Some sol ->
  ready api s sol = true ->
  prepare api w = (Val (FrameCounter.mk (sol_start_frame sol)), entered api w s sol).
Proof.
  intros Hs Hsol Hr. rewrite (prepare_until_check w s sol) by done.
  unfold bind at 1.
  rewrite (check_validity_ok _ (prepared_solver api s sol) (prepared_solution sol)) by done.
  unfold write_gauge_values, entered. mstep. by rewrite <- app_assoc.
Qed.

Lemma prepare_not_ready w s sol :
  solver (self w) = Some s -> solution (self w) = Some sol ->
  ready api s sol = false ->
  exists e, prepare api w = (Raised e, set_up api w s sol) /\ validity_exn e.
Proof.
  intros Hs Hsol Hr. rewrite (prepare_until_check w s sol) by done.
  destruct (check_validity_fails (set_up api w s sol)
              (prepared_solver api s sol) (prepared_solution sol)) as (e & He & Hv);
    try done.
  exists e. split; [|done]. unfold bind at 1. by rewrite He.
Qed.

Lemma prepare_absent w :
  solver (self w) = None \/ solution (self w) = None ->
  prepare api w = (Raised NoSolverOrSolution, w).
Proof.
  intros H. unfold prepare. mstep.
  destruct H as [-> | ->]; simpl; [done|].
  by destruct (solver (self w)).
Qed.

(** The output times computed after the entry phase are the [schedule]. *)
Lemma compute_output_times_entered w s sol :
  compute_output_times api (entered api w s sol) =
  (match schedule api (self w) sol with Val l => Val l | Raised e => Raised e end,
   entered api w s sol).
Proof.
  unfold compute_output_times. mstep.
  replace (output_times_of api _ (prepared_solution sol)) with (schedule api (self w) sol).
  - by destruct (schedule api (self w) sol).
  - unfold schedule, output_times_of, prepared_solution. simpl.
    by destruct (0 <? Z.of_nat (length (gauges sol))).
Qed.

(** [run] after a successful entry phase. *)
Lemma run_ready w s sol :
  solver (self w) = Some s -> solution (self w) = Some sol ->
  ready api s sol = true ->
  run api w =
  match schedule api (self w) sol with
  | Raised e => (Raised e, entered api w s sol)
  | Val [] => halt (entered api w s sol)
  | Val (t0 :: ts) =>
      bind (initial_output api (FrameCounter.mk (sol_start_frame sol)))
        (fun _ => bind (for_each ts (output_step api) (FrameCounter.mk (sol_start_frame sol), None))
           (fun acc => finish (snd acc))) (entered api w s sol)
  end.
Proof.
  intros Hs Hsol Hr. unfold run. unfold bind at 1. rewrite (prepare_ready w s sol) by done.
  unfold bind at 1. rewrite compute_output_times_entered.
  destruct (schedule api (self w) sol) as [[|t0 ts]|e]; reflexivity.
Qed.

Lemma halt_entered w s sol :
  halt (entered api w s sol) =
  (Val None,
   {| self := self (entered api w s sol);
      fs_exists := fs_exists (entered api w s sol);
      fs_text := fs_text w;
      trace := trace w ++ entry_events (self w) s sol ++ [EvWriteGaugeValues] ++
               [EvPrint "No valid output times; halting."] ++
               (if bool_decide (sol_t sol = tfinal (self w))
                then [EvPrint "Simulation has already reached tfinal."] else []) |}).
Proof.
  unfold halt. mstep.
  replace (sol_t (prepared_solution sol)) with (sol_t sol)
    by (unfold prepared_solution; by destruct (0 <? Z.of_nat (length (gauges sol)))).
  destruct (bool_decide (sol_t sol = tfinal (self w))); simpl;
    rewrite <- ?app_assoc; simpl; rewrite <- ?app_assoc; reflexivity.
Qed.

Lemma Inv_entered (G : Solution Payload -> Prop) w s sol :
  G (prepared_solution sol) -> Inv G (settings (self w)) (entered api w s sol).
Proof. intros HG. split; [done|]. by exists (prepared_solver api s sol), (prepared_solution sol). Qed.

(** A file that can be opened stays so while paths are only added. *)
Lemma openable_mono w w' p :
  fs_exists w ⊆ fs_exists w' -> openable w p = true -> openable w' p = true.
Proof.
  unfold openable. rewrite !orb_true_iff, !bool_decide_eq_true.
  intros Hsub [H|H]; [by left | right].
  apply elem_of_map in H as (n & Hn & Hin). apply elem_of_map. eauto.
Qed.

Lemma openable_same w w' p : fs_exists w' = fs_exists w -> openable w' p = openable w p.
Proof. unfold openable. by intros ->. Qed.

(** [log_ready] is what line 368 finds after the entry phase. *)
Lemma log_ready_entered w s sol :
  log_ready w sol =
  match compute_F (self w) with
  | None => true
  | Some _ => openable (entered api w s sol) (F_path (self w))
  end.
Proof.
  unfold log_ready, openable, entered, set_up. simpl.
  destruct (compute_F (self w)); [|done].
  destruct (0 <? Z.of_nat (length (gauges sol))); simpl.
  - rewrite <- orb_assoc. f_equal.
    apply eq_true_iff_eq.
    rewrite orb_true_iff, !bool_decide_eq_true, set_map_union_L, set_map_singleton_L.
    rewrite elem_of_union, elem_of_singleton. tauto.
  - by rewrite orb_false_r.
Qed.
End Entry.

Section Invariant.
Context {Status Payload SolverSt : Type}.
Variable api : SolverAPI Status Payload SolverSt.
Variable G : Solution Payload -> Prop.
Variable c : Settings Payload.
Hypothesis G_state : forall st sol, G sol -> G (set_sol_state st sol).
Hypothesis G_evolve : forall s sol tend st s' sol',
  G sol -> evolve_to_time api s sol tend = inr (st, s', sol') -> G sol'.
Implicit Types w : World Status Payload SolverSt.
Local Abbreviation Run := (@M Status Payload SolverSt).

Lemma for_each_emit (f : gfile -> Event Status) (l : list gfile) w :
  for_each l (fun g _ => emit (f g)) () w =
  (Val (), {| self := self w; fs_exists := fs_exists w; fs_text := fs_text w;
              trace := trace w ++ map f l |}).
Proof.
  revert w. induction l as [|g l IH]; intros w; simpl.
  - unfold ret. rewrite app_nil_r. by destruct w.
  - unfold bind at 1. unfold emit at 1. rewrite IH. simpl.
    by rewrite <- app_assoc.
Qed.

Lemma stage_ret P : stage G c P (ret () : Run unit).
Proof. intros w HI. exists [], w. by rewrite app_nil_r. Qed.

Lemma stage_bind P (m1 m2 : Run unit) :
  stage G c P m1 -> stage G c P m2 -> stage G c P (bind m1 (fun _ => m2)).
Proof.
  intros H1 H2 w HI.
  destruct (H1 w HI) as (e1 & w1 & E1 & I1 & T1 & P1 & X1 & F1).
  destruct (H2 w1 I1) as (e2 & w2 & E2 & I2 & T2 & P2 & X2 & F2).
  exists (e1 ++ e2), w2. unfold bind. rewrite E1, E2.
  rewrite T2, T1, app_assoc, forallb_app, P1, P2.
  split; [done|]. split; [done|]. split; [done|]. split; [done|].
  split; congruence.
Qed.

Lemma stage_when P b (m : Run unit) : stage G c P m -> stage G c P (when b m).
Proof. destruct b; simpl; [done | intros _; apply stage_ret]. Qed.

Lemma stage_weaken (P Q : Event Status -> bool) (m : Run unit) :
  (forall e, P e = true -> Q e = true) -> stage G c P m -> stage G c Q m.
Proof.
  intros H Hm w HI. destruct (Hm w HI) as (e1 & w1 & E1 & I1 & T1 & P1 & X1).
  exists e1, w1. split; [done|]. split; [done|]. split; [done|].
  split; [by apply (forallb_weaken P) | done].
Qed.

Lemma stage_keep_frame : stage G c is_snapshot (keep_frame : Run unit).
Proof.
  intros w (Hc & s & sol & Hs & Hsol & HG). exists [EvKeepCopy]. eexists.
  unfold keep_frame. mstep. rewrite Hsol. simpl.
  split; [reflexivity|]. simpl. split; [|done].
  split; [done|]. exists s, sol. auto.
Qed.

Lemma stage_call_compute_p f : stage G c is_snapshot (call_compute_p f : Run unit).
Proof.
  intros w (Hc & s & sol & Hs & Hsol & HG). exists [EvComputeP]. eexists.
  unfold call_compute_p. mstep. rewrite Hsol. simpl.
  split; [reflexivity|]. simpl. split; [|done].
  split; [done|]. exists s, (set_sol_state (f (sol_state sol)) sol). auto.
Qed.

Lemma stage_solution_write call : stage G c is_snapshot (solution_write call : Run unit).
Proof.
  intros w HI. exists [EvWrite call]. eexists.
  unfold solution_write. mstep.
  split; [reflexivity|]. simpl. split; [|done].
  destruct HI as (Hc & s & sol & Hs & Hsol & HG).
  split; [done|]. exists s, sol. auto.
Qed.

(** Lines 345-363 and 387-397: the derived and the main snapshot. *)
Lemma stage_persist frame path_p write_aux :
  stage G c is_snapshot
    (bind (match compute_p c with
           | Some f =>
               bind (call_compute_p f) (fun _ =>
                 solution_write
                   (write_call c frame path_p (Some (file_prefix_p c)) false true))
           | None => (ret () : Run unit)
           end)
       (fun _ => solution_write
          (write_call c frame (outdir c) (output_file_prefix c) write_aux false))).
Proof.
  apply stage_bind; [|apply stage_solution_write].
  destruct (compute_p c); [|apply stage_ret].
  apply stage_bind; [apply stage_call_compute_p | apply stage_solution_write].
Qed.

Lemma bind_get_self {A} (f : Controller Payload SolverSt -> Run A) w :
  bind get_self f w = f (self w) w.
Proof. reflexivity. Qed.

Lemma write_F_spec mode w :
  Inv G c w ->
  compute_F c = None \/ openable w (F_path c) = true ->
  exists evs w', write_F api mode w = (Val (), w') /\ Inv G c w' /\
    trace w' = trace w ++ evs /\
    fs_exists w ⊆ fs_exists w' /\
    match compute_F c with
    | None => evs = [] /\ fs_text w' = fs_text w
    | Some _ =>
        exists line,
          evs = [EvComputeF; EvWriteF (F_path c) mode line] /\
          fs_text w' =
            <[F_path c := match mode with
                          | Truncate => []
                          | Append => default [] (fs_text w !! F_path c)
                          end ++ [line]]> (fs_text w)
    end.
Proof.
  intros (Hc & s & sol & Hs & Hsol & HG) Hopen. unfold write_F. mstep.
  rewrite Hc. destruct (compute_F c) as [f|]; simpl.
  - destruct Hopen as [|Hopen]; [done|].
    rewrite Hsol. simpl. unfold write_line, openable in *. simpl. rewrite Hopen.
    eexists _, _.
    split; [reflexivity|]. simpl. rewrite <- app_assoc. simpl.
    split; [|split; [reflexivity|split; [set_solver|]]].
    + split; [done|]. eexists s, _. repeat split; eauto.
    + eexists. split; reflexivity.
  - exists [], w. rewrite app_nil_r. repeat split; try done. by exists s, sol.
Qed.

(** Line 432 when the directory of the functional log is missing. *)
Lemma write_F_fails mode w f :
  Inv G c w -> compute_F c = Some f -> openable w (F_path c) = false ->
  exists w', write_F api mode w = (Raised (IOError (F_path c)), w') /\
    trace w' = trace w ++ [EvComputeF] /\
    fs_exists w' = fs_exists w /\ fs_text w' = fs_text w.
Proof.
  intros (Hc & s & sol & Hs & Hsol & HG) HF Hopen. unfold write_F. mstep.
  rewrite Hc, HF. simpl. rewrite Hsol. simpl.
  unfold write_line, openable in *. simpl. rewrite Hopen.
  eexists. split; [reflexivity|]. done.
Qed.

Lemma log_info_spec frame w :
  Inv G c w ->
  exists sol w', log_info frame w = (Val (), w') /\ Inv G c w' /\
    solution (self w') = Some sol /\ G sol /\
    trace w' = trace w ++ [EvLogInfo (FrameCounter.counter frame) (sol_t sol)] /\
    fs_exists w' = fs_exists w /\ fs_text w' = fs_text w.
Proof.
  intros (Hc & s & sol & Hs & Hsol & HG). unfold log_info. mstep. rewrite Hsol. simpl.
  eexists sol, _. split; [reflexivity|]. simpl. repeat split; try done.
  by exists s, sol.
Qed.

(** *** Composition of loop steps *)

Lemma step_post_ret {A} (busy : Prop) (so : A -> option Status) st0 (a : A) w :
  Inv G c w -> so a = st0 -> (busy -> is_Some st0) ->
  step_post G c busy so st0 w (ret a w).
Proof.
  intros HI Hso Hb. exists []. simpl. rewrite !app_nil_r.
  split; [done|]. split; [done|]. split; [done|].
  split; [by intros l0 ->; rewrite app_nil_r|].
  split; [done|].
  split; [done|]. split; [done|]. split; [by rewrite Hso; destruct st0|].
  by rewrite Hso.
Qed.

Lemma step_post_bind {A B} (busy1 busy2 busy : Prop)
    (sa : A -> option Status) (sb : B -> option Status) st0
    (m : Run A) (f : A -> Run B) w :
  (busy -> busy1 \/ busy2) ->
  step_post G c busy1 sa st0 w (m w) ->
  (forall a w1, Inv G c w1 -> step_post G c busy2 sb (sa a) w1 (f a w1)) ->
  step_post G c busy sb st0 w (bind m f w).
Proof.
  intros Hb (e1 & T1 & L1 & Fl1 & Tx1 & O1 & R1) H2. unfold bind.
  destruct (m w) as [[a|e] w1]; simpl in *.
  - destruct R1 as (I1 & Fa1 & S1 & B1).
    destruct (H2 a w1 I1) as (e2 & T2 & L2 & Fl2 & Tx2 & O2 & R2).
    exists (e1 ++ e2).
    split; [by rewrite T2, T1, app_assoc|].
    split; [by rewrite forallb_app, L1, L2|].
    split; [by intros gfs Hg; apply flushed_after_app; auto|].
    split; [by intros l0 Hl; rewrite flines_app, app_assoc; auto|].
    split; [by auto|].
    destruct (f a w1) as [[b|e] w2]; simpl in *.
    + destruct R2 as (I2 & Fa2 & S2 & B2).
      split; [done|]. split; [by rewrite failures_app, Fa1, Fa2|].
      split; [by rewrite S2, S1, status_after_app|].
      intros [H|H]%Hb; [|by auto].
      rewrite S2. destruct (B1 H) as [x Hx]. rewrite Hx.
      unfold status_after. destruct (last (statuses e2)); eauto.
    + destruct R2 as [H|H]; [left | by right].
      by rewrite failures_app, Fa1.
  - by exists e1.
Qed.

Lemma step_post_for_each {X A} (busy : Prop) (so : A -> option Status)
    (body : X -> A -> Run A) (l : list X) :
  (forall x acc w, Inv G c w -> step_post G c busy so (so acc) w (body x acc w)) ->
  forall acc w, Inv G c w ->
    step_post G c (busy /\ l <> []) so (so acc) w (for_each l body acc w).
Proof.
  intros Hbody. induction l as [|x l IH]; intros acc w HI; simpl.
  - apply step_post_ret; [done | done | by intros [_ ?]].
  - apply (step_post_bind busy (busy /\ l <> []) _ so so); [tauto | by apply Hbody |].
    intros a w1 I1. by apply IH.
Qed.

(** A stage that writes no functional and logs no output point is a step
    that leaves [status] alone. *)
Lemma step_post_stage (m : Run unit) st0 w :
  stage G c is_snapshot m -> Inv G c w ->
  step_post G c False (fun _ => st0) st0 w (m w).
Proof.
  intros Hm HI. destruct (Hm w HI) as (evs & w' & E & I' & T & P & X & F).
  rewrite E. exists evs. simpl.
  split; [done|].
  split; [by apply (forallb_weaken is_snapshot); [intros []|]|].
  split.
  { intros gfs _. apply flushed_after_quiet.
    by apply (forallb_weaken is_snapshot); [intros []|]. }
  assert (flines evs = []) as ->
    by (by apply (forallb_omap_nil is_snapshot); [intros []|]).
  assert (failures evs = []) as ->
    by (by apply (forallb_omap_nil is_snapshot); [intros []|]).
  split; [by intros l0 Hl; rewrite app_nil_r, F|].
  split; [by rewrite (openable_same w w')|].
  split; [done|]. split; [done|]. split; [|done].
  unfold status_after.
  assert (statuses evs = []) as ->
    by (by apply (forallb_omap_nil is_snapshot); [intros []|]).
  done.
Qed.

(** *** The steps of the loop body *)

Lemma evolve_post tend st0 w :
  Inv G c w -> step_post G c True Some st0 w (evolve api tend w).
Proof.
  intros (Hc & s & sol & Hs & Hsol & HG). unfold evolve. mstep. rewrite Hs, Hsol. simpl.
  destruct (evolve_to_time api s sol tend) as [e|[[st s'] sol']] eqn:He; simpl.
  - exists [EvEvolve tend (inl e)]. simpl.
    split; [done|]. split; [done|]. split; [by intros gfs _|].
    split; [by intros l0 ->; rewrite app_nil_r|].
    split; [done|]. by left.
  - exists [EvEvolve tend (inr st)]. simpl.
    split; [done|]. split; [done|]. split; [by intros gfs _|].
    split; [by intros l0 ->; rewrite app_nil_r|].
    split; [done|].
    split; [|by eauto]. split; [done|]. exists s', sol'. eauto.
Qed.

Lemma increment_post st0 w :
  Inv G c w -> step_post G c False (fun _ => st0) st0 w (emit EvIncrement w).
Proof.
  intros HI. exists [EvIncrement]. simpl.
  split; [done|]. split; [done|]. split; [by intros gfs _|].
  split; [by intros l0 ->; rewrite app_nil_r|].
  split; [done|].
  split; [|done]. destruct HI as (Hc & s & sol & Hs & Hsol & HG).
  split; [done|]. by exists s, sol.
Qed.

Lemma write_F_post st0 w :
  Inv G c w -> step_post G c False (fun _ => st0) st0 w (write_F api Append w).
Proof.
  intros HI.
  destruct (compute_F c) as [f|] eqn:HF; [destruct (openable w (F_path c)) eqn:Ho|].
  - destruct (write_F_spec Append w HI) as (evs & w' & E & I' & T & X & HFx); [by right|].
    rewrite E. exists evs. simpl. split; [done|].
    rewrite HF in HFx. destruct HFx as (line & -> & ->). simpl.
    rewrite bool_decide_true by done.
    split; [done|]. split; [by intros gfs _|].
    split; [by intros l0 ->; rewrite lookup_insert_eq|].
    split; [by intros _; apply (openable_mono w)|]. done.
  - destruct (write_F_fails Append w f HI HF Ho) as (w' & E & T & X & Ft).
    rewrite E. exists [EvComputeF]. simpl.
    split; [done|]. split; [done|]. split; [by intros gfs _|].
    split; [by intros l0 Hl; rewrite app_nil_r, Ft|].
    split; [by rewrite Ho|].
    right. split; [by rewrite HF|]. by rewrite (openable_same w w').
  - destruct (write_F_spec Append w HI) as (evs & w' & E & I' & T & X & HFx); [by left|].
    rewrite E. exists evs. simpl. split; [done|].
    rewrite HF in HFx. destruct HFx as [-> HFx]. simpl.
    split; [done|]. split; [by intros gfs _|].
    split; [by intros l0 Hl; rewrite app_nil_r, HFx|].
    split; [by intros Ho; apply (openable_mono w)|]. done.
Qed.

(** Lines 399-413. *)
Lemma log_flush_post frame st0 w :
  Inv G c w ->
  step_post G c False (fun _ => st0) st0 w
    (bind (log_info frame) (fun _ =>
       bind the_solution (fun sol =>
         for_each (gauge_files sol) (fun g _ => emit (EvFlush g)) ())) w).
Proof.
  intros HI. destruct (log_info_spec frame w HI) as (sol & w' & E & I' & Hsol & HG & T & X & F).
  unfold bind at 1. rewrite E. unfold the_solution.
  repeat (unfold bind, get_self, ret; simpl).
  rewrite Hsol. simpl. rewrite for_each_emit. simpl.
  exists ([EvLogInfo (FrameCounter.counter frame) (sol_t sol)]
            ++ map EvFlush (gauge_files sol)).
  split; [by simpl; rewrite T, <- app_assoc|].
  split; [by rewrite forallb_app, loop_event_flushes|]. split.
  { intros gfs Hg. split; [|apply flushed_after_flushes].
    intros _. exists []. by rewrite app_nil_r, (Hg sol HG). }
  unfold status_after. rewrite flines_app, failures_app, statuses_app.
  rewrite flines_flushes, failures_flushes, statuses_flushes. simpl.
  split; [by intros l0 Hl; rewrite app_nil_r, F|].
  split; [by unfold openable; simpl; rewrite X|].
  split; [|done]. destruct I' as (Hc & s & sol' & Hs & Hsol' & HG').
  split; [done|]. exists s, sol'. auto.
Qed.

Lemma step_post_busy {A} (busy busy' : Prop) (so : A -> option Status) st0 w out :
  (busy' -> busy) ->
  step_post G c busy so st0 w out -> step_post G c busy' so st0 w out.
Proof.
  intros Hb (evs & T & L & Fl & Tx & O & R). exists evs.
  split; [done|]. split; [done|]. split; [done|]. split; [done|]. split; [done|].
  destruct out.1; [|done]. destruct R as (I & Fa & S & B).
  split; [done|]. split; [done|]. split; [done|]. auto.
Qed.

(** Lines 374-379. *)
Lemma advance_post t status w :
  Inv G c w -> step_post G c (productive c) id status w (advance api t status w).
Proof.
  intros HI. unfold advance. rewrite bind_get_self.
  destruct HI as [Hc HI']. rewrite Hc. assert (Inv G c w) as HI by done.
  destruct (Z.ltb_spec (output_style c) 3) as [Hs|Hs].
  - apply (step_post_bind True False _ Some id); [tauto | by apply evolve_post |].
    intros st w1 I1. by apply step_post_ret.
  - apply (step_post_busy (True /\ seq 0 (Z.to_nat (nstepout c)) <> [])).
    { intros [H|H]; [lia|]. split; [done|].
      destruct (Z.to_nat (nstepout c)) eqn:Hn; [lia | done]. }
    apply (step_post_for_each True id); [|done].
    intros _ acc w1 I1.
    apply (step_post_bind True False _ Some id); [tauto | by apply evolve_post |].
    intros st w2 I2. by apply step_post_ret.
Qed.

(** Lines 381-413. *)
Lemma save_frame_post frame st0 w :
  Inv G c w -> step_post G c False (fun _ => st0) st0 w (save_frame api frame w).
Proof.
  intros HI. unfold save_frame. rewrite bind_get_self.
  destruct HI as [Hc HI']. rewrite Hc. assert (Inv G c w) as HI by done.
  apply (step_post_bind False False _ (fun _ => st0) (fun _ => st0)); [tauto | |].
  { apply step_post_stage; [|done]. apply stage_when, stage_keep_frame. }
  intros _ w1 I1.
  apply (step_post_bind False False _ (fun _ => st0) (fun _ => st0)); [tauto | |].
  { apply step_post_stage; [|done].
    destruct (output_disabled c); [apply stage_ret | apply stage_persist]. }
  intros _ w2 I2.
  apply (step_post_bind False False _ (fun _ => st0) (fun _ => st0)); [tauto | |].
  { by apply write_F_post. }
  intros _ w3 I3. by apply log_flush_post.
Qed.

(** Lines 373-413: one pass through the loop body. *)
Lemma output_step_post t acc w :
  Inv G c w ->
  step_post G c (productive c) snd (snd acc) w (output_step api t acc w).
Proof.
  intros HI. unfold output_step.
  apply (step_post_bind (productive c) False _ id snd); [tauto | by apply advance_post |].
  intros status w1 I1.
  apply (step_post_bind False False _ (fun _ => status) snd); [tauto | by apply increment_post |].
  intros _ w2 I2.
  apply (step_post_bind False False _ (fun _ => status) snd); [tauto | by apply save_frame_post |].
  intros _ w3 I3. by apply step_post_ret.
Qed.

(** Lines 373-413: the loop. *)
Lemma loop_post ts acc w :
  Inv G c w ->
  step_post G c (productive c /\ ts <> []) snd (snd acc) w
    (for_each ts (output_step api) acc w).
Proof.
  intros HI. apply (step_post_for_each (productive c) snd); [|done].
  intros t acc' w' I'. by apply output_step_post.
Qed.

(** *** The initial output point and the end of [run] *)

(** Lines 335-366 when line 342 does not raise: the initial frame is
    retained and persisted, and lines 368-371 remain. *)
Lemma initial_output_snapshot frame w :
  Inv G c w ->
  output_disabled c = true \/
    bool_decide (outdir c ∈ fs_exists w) && negb (output_clobber c) = false ->
  exists mid w2,
    Inv G c w2 /\ trace w2 = trace w ++ mid /\ forallb is_snapshot mid = true /\
    fs_exists w2 = fs_exists w /\ fs_text w2 = fs_text w /\
    initial_output api frame w
    = bind (write_F api Truncate) (fun _ => log_info frame) w2.
Proof.
  intros HI Hok. unfold initial_output. rewrite bind_get_self.
  destruct HI as [Hc HI']. rewrite Hc. assert (Inv G c w) as HI by done.
  destruct (stage_when is_snapshot (keep_copy c) _ stage_keep_frame w HI)
    as (e1 & w1 & E1 & I1 & T1 & P1 & X1 & F1).
  unfold bind at 1. rewrite E1.
  assert (exists e2 w2,
    (if output_disabled c then ret ()
     else
       bind (path_exists (outdir c)) (fun existing =>
         if existing && negb (output_clobber c) then raise RefuseOverwrite
         else
           bind (match compute_p c with
                 | Some f =>
                     bind (call_compute_p f) (fun _ =>
                       solution_write
                         (write_call c frame (outdir_p c) (Some (file_prefix_p c)) false true))
                 | None => ret ()
                 end)
             (fun _ => solution_write
                (write_call c frame (outdir c) (output_file_prefix c)
                   (write_aux_always c || write_aux_init c) false)))) w1 = (Val (), w2) /\
    Inv G c w2 /\ trace w2 = trace w1 ++ e2 /\ forallb is_snapshot e2 = true /\
    fs_exists w2 = fs_exists w1 /\ fs_text w2 = fs_text w1)
    as (e2 & w2 & E2 & I2 & T2 & P2 & X2 & F2).
  { destruct (output_disabled c).
    - exists [], w1. by rewrite app_nil_r.
    - destruct Hok as [|Hok]; [done|].
      unfold bind at 1, path_exists at 1. rewrite X1, Hok.
      destruct (stage_persist frame (outdir_p c) (write_aux_always c || write_aux_init c)
                  w1 I1) as (e2 & w2 & E2 & I2 & T2 & P2 & X2 & F2).
      exists e2, w2. split; [exact E2|]. split; [exact I2|]. split; [exact T2|]. split; [exact P2|]. split; [congruence | exact F2]. }
  unfold bind at 1. rewrite E2.
  exists (e1 ++ e2), w2.
  split; [done|]. split; [by rewrite T2, T1, <- app_assoc|].
  split; [by rewrite forallb_app, P1, P2|].
  split; [congruence|]. split; [congruence|]. done.
Qed.

(** Lines 335-371 when line 342 does not raise and line 432 finds the
    directory of the functional log. *)
Lemma initial_output_ok frame w :
  Inv G c w ->
  output_disabled c = true \/
    bool_decide (outdir c ∈ fs_exists w) && negb (output_clobber c) = false ->
  compute_F c = None \/ openable w (F_path c) = true ->
  exists mid sol w',
    initial_output api frame w = (Val (), w') /\ Inv G c w' /\
    solution (self w') = Some sol /\ G sol /\
    trace w' = trace w ++ mid ++ [EvLogInfo (FrameCounter.counter frame) (sol_t sol)] /\
    forallb (init_event (F_path c)) mid = true /\
    (compute_F c <> None -> openable w' (F_path c) = true) /\
    match compute_F c with
    | Some _ => exists line, flines mid = [line] /\ fs_text w' !! F_path c = Some [line]
    | None => flines mid = [] /\ fs_text w' = fs_text w
    end.
Proof.
  intros HI Hok Hopen.
  destruct (initial_output_snapshot frame w HI Hok)
    as (e1 & w2 & I2 & T2 & P2 & X2 & F2 & ->).
  destruct (write_F_spec Truncate w2 I2) as (e3 & w3 & E3 & I3 & T3 & X3 & HF).
  { destruct Hopen as [|Hopen]; [by left | right]. by rewrite (openable_same w w2). }
  unfold bind at 1. rewrite E3.
  destruct (log_info_spec frame w3 I3) as (sol & w4 & E4 & I4 & Hsol & HG & T4 & X4 & F4).
  rewrite E4. exists (e1 ++ e3), sol, w4.
  split; [done|]. split; [done|]. split; [done|]. split; [done|].
  split; [by rewrite T4, T3, T2, <- !app_assoc|].
  assert (forallb (init_event (F_path c)) e1 = true) as Hsnap
    by (eapply forallb_weaken; [|exact P2]; by intros []).
  assert (flines e1 = []) as Hfl
    by (eapply forallb_omap_nil; [|exact P2]; by intros []).
  rewrite !forallb_app, !flines_app, Hsnap, Hfl.
  split.
  { destruct (compute_F c); simpl.
    - destruct HF as (line & -> & HF). simpl. by rewrite bool_decide_true.
    - by destruct HF as [-> HF]. }
  split.
  { intros HcF. destruct Hopen as [|Hopen]; [done|].
    rewrite (openable_same w3 w4) by done.
    apply (openable_mono w2); [done|]. by rewrite (openable_same w w2). }
  simpl. destruct (compute_F c).
  - destruct HF as (line & -> & HF). simpl. exists line. split; [done|].
    by rewrite F4, HF, lookup_insert_eq.
  - destruct HF as [-> HF]. split; [done|]. congruence.
Qed.

(** Lines 335-371 when line 342 does not raise and line 432 does: the
    directory of the functional log is missing. *)
Lemma initial_output_blocked frame w f :
  Inv G c w ->
  output_disabled c = true \/
    bool_decide (outdir c ∈ fs_exists w) && negb (output_clobber c) = false ->
  compute_F c = Some f -> openable w (F_path c) = false ->
  exists mid w',
    initial_output api frame w = (Raised (IOError (F_path c)), w') /\
    trace w' = trace w ++ mid ++ [EvComputeF] /\
    forallb is_snapshot mid = true /\
    fs_text w' = fs_text w /\ fs_exists w' = fs_exists w.
Proof.
  intros HI Hok HF Hopen.
  destruct (initial_output_snapshot frame w HI Hok)
    as (e1 & w2 & I2 & T2 & P2 & X2 & F2 & ->).
  destruct (write_F_fails Truncate w2 f I2 HF) as (w3 & E3 & T3 & X3 & F3).
  { by rewrite (openable_same w w2). }
  unfold bind at 1. rewrite E3. exists e1, w3.
  split; [done|]. split; [by rewrite T3, T2, <- app_assoc|].
  split; [done|]. split; congruence.
Qed.

(** Lines 335-344 when line 342 raises. *)
Lemma initial_output_conflict frame w :
  Inv G c w -> output_disabled c = false ->
  bool_decide (outdir c ∈ fs_exists w) && negb (output_clobber c) = true ->
  exists w',
    initial_output api frame w = (Raised RefuseOverwrite, w') /\
    trace w' = trace w ++ (if keep_copy c then [EvKeepCopy] else []) /\
    fs_text w' = fs_text w /\ fs_exists w' = fs_exists w.
Proof.
  intros (Hc & s & sol & Hs & Hsol & HG) Hout Hex.
  unfold initial_output. rewrite bind_get_self, Hc, Hout.
  unfold keep_frame, path_exists. destruct (keep_copy c); mstep.
  - rewrite Hsol. simpl. rewrite Hex. eexists. split; [reflexivity|]. done.
  - rewrite Hex. eexists. split; [reflexivity|]. simpl. by rewrite app_nil_r.
Qed.

(** Lines 415-420. *)
Lemma finish_spec status w :
  Inv G c w ->
  exists sol w',
    solution (self w) = Some sol /\ G sol /\
    finish status w =
      (match status with
       | Some st => Val (Some st)
       | None => Raised (UnboundLocalError "status")
       end, w') /\
    trace w' = trace w ++ map EvClose (gauge_files sol) /\
    fs_text w' = fs_text w.
Proof.
  intros (Hc & s & sol & Hs & Hsol & HG). exists sol.
  unfold finish.
  repeat progress
    (unfold bind, ret, raise, get_self, put_self, the_solution, put_solution; simpl).
  rewrite Hsol. rewrite for_each_emit. simpl. rewrite Hsol.
  destruct status; eexists; (split; [done|]); (split; [done|]);
    (split; [reflexivity|]); done.
Qed.

(** *** [run] as a whole *)

Lemma conflict_entered w s sol :
  bool_decide (outdir (self w) ∈ fs_exists (entered api w s sol))
  && negb (output_clobber (self w)) = conflict w sol.
Proof.
  unfold conflict, entered, set_up. simpl.
  destruct (0 <? Z.of_nat (length (gauges sol))); simpl.
  - rewrite bool_decide_true by set_solver. by rewrite orb_true_r.
  - by rewrite orb_false_r.
Qed.

(** A run that gets past lines 344 and 368: the initial output point,
    then the loop, then lines 415-420. *)
Lemma run_through w s sol t0 ts :
  solver (self w) = Some s -> solution (self w) = Some sol ->
  ready api s sol = true ->
  schedule api (self w) sol = Val (t0 :: ts) ->
  settings (self w) = c ->
  G (prepared_solution sol) ->
  output_disabled c = true \/ conflict w sol = false ->
  log_ready w sol = true ->
  exists mid sol1 w1,
    Inv G c w1 /\ solution (self w1) = Some sol1 /\ G sol1 /\
    trace w1 = trace w ++ entry_events (self w) s sol ++ [EvWriteGaugeValues] ++ mid
                       ++ [EvLogInfo (sol_start_frame sol) (sol_t sol1)] /\
    forallb (init_event (F_path c)) mid = true /\
    (compute_F c <> None -> openable w1 (F_path c) = true) /\
    match compute_F c with
    | Some _ => exists line, flines mid = [line] /\ fs_text w1 !! F_path c = Some [line]
    | None => flines mid = [] /\ fs_text w1 = fs_text w
    end /\
    let lp := for_each ts (output_step api) (FrameCounter.mk (sol_start_frame sol), None) w1 in
    step_post G c (productive c /\ ts <> []) snd None w1 lp /\
    run api w = match lp.1 with
                | Val acc => finish (snd acc) lp.2
                | Raised e => (Raised e, lp.2)
                end.
Proof.
  intros Hs Hsol Hr Hsch Hc HG Hok Hlog.
  assert (Inv G c (entered api w s sol)) as HI by (rewrite <- Hc; by apply Inv_entered).
  destruct (initial_output_ok (FrameCounter.mk (sol_start_frame sol)) _ HI)
    as (mid & sol1 & w1 & E1 & I1 & Hsol1 & HG1 & T1 & P1 & O1 & F1).
  { destruct Hok as [|Hok]; [by left | right].
    rewrite <- Hc. by rewrite conflict_entered. }
  { rewrite (log_ready_entered api w s sol) in Hlog. rewrite <- Hc.
    destruct (compute_F (self w)); [by right | by left]. }
  exists mid, sol1, w1.
  split; [done|]. split; [done|]. split; [done|].
  split; [by rewrite T1; simpl; rewrite <- !app_assoc|].
  split; [done|]. split; [done|]. split; [done|].
  split; [by apply loop_post|].
  rewrite (run_ready api w s sol), Hsch by done.
  unfold bind at 1. rewrite E1. unfold bind.
  by destruct (for_each ts (output_step api) _ w1) as [[acc|e] w2].
Qed.

(** A run stopped by line 342. *)
Lemma run_conflict w s sol t0 ts :
  solver (self w) = Some s -> solution (self w) = Some sol ->
  ready api s sol = true ->
  schedule api (self w) sol = Val (t0 :: ts) ->
  settings (self w) = c ->
  G (prepared_solution sol) ->
  output_disabled c = false -> conflict w sol = true ->
  exists w',
    run api w = (Raised RefuseOverwrite, w') /\
    trace w' = trace w ++ entry_events (self w) s sol ++ [EvWriteGaugeValues]
                       ++ (if keep_copy c then [EvKeepCopy] else []) /\
    fs_text w' = fs_text w /\
    fs_exists w' = fs_exists (entered api w s sol).
Proof.
  intros Hs Hsol Hr Hsch Hc HG Hout Hcf.
  assert (Inv G c (entered api w s sol)) as HI by (rewrite <- Hc; by apply Inv_entered).
  destruct (initial_output_conflict (FrameCounter.mk (sol_start_frame sol)) _ HI Hout)
    as (w' & E & T & F & X).
  { rewrite <- Hc. by rewrite conflict_entered. }
  exists w'. rewrite (run_ready api w s sol), Hsch by done.
  unfold bind at 1. rewrite E.
  split; [done|]. split; [by rewrite T; simpl; rewrite <- !app_assoc | done].
Qed.

(** A run stopped by line 432 at the initial output point. *)
Lemma run_blocked w s sol t0 ts :
  solver (self w) = Some s -> solution (self w) = Some sol ->
  ready api s sol = true ->
  schedule api (self w) sol = Val (t0 :: ts) ->
  settings (self w) = c ->
  G (prepared_solution sol) ->
  output_disabled c = true \/ conflict w sol = false ->
  log_ready w sol = false ->
  exists mid w',
    run api w = (Raised (IOError (F_path c)), w') /\
    trace w' = trace w ++ entry_events (self w) s sol ++ [EvWriteGaugeValues]
                       ++ mid ++ [EvComputeF] /\
    forallb is_snapshot mid = true /\
    fs_text w' = fs_text w /\
    fs_exists w' = fs_exists (entered api w s sol).
Proof.
  intros Hs Hsol Hr Hsch Hc HG Hok Hlog.
  assert (Inv G c (entered api w s sol)) as HI by (rewrite <- Hc; by apply Inv_entered).
  rewrite (log_ready_entered api w s sol) in Hlog.
  destruct (compute_F (self w)) as [f|] eqn:HF; [|done].
  destruct (initial_output_blocked (FrameCounter.mk (sol_start_frame sol)) _ f HI)
    as (mid & w' & E & T & P & F & X).
  { destruct Hok as [|Hok]; [by left | right].
    rewrite <- Hc. by rewrite conflict_entered. }
  { by rewrite <- Hc. }
  { by rewrite <- Hc. }
  exists mid, w'. rewrite (run_ready api w s sol), Hsch by done.
  unfold bind at 1. rewrite E.
  split; [done|]. split; [by rewrite T; simpl; rewrite <- !app_assoc | done].
Qed.

(** What a run that gets past lines 344 and 368 does and how it ends: the
    calls before the loop, those of the loop, and the closing of the gauge
    streams when the loop ran to its end. *)
Lemma run_outcome w s sol t0 ts :
  solver (self w) = Some s -> solution (self w) = Some sol ->
  ready api s sol = true ->
  schedule api (self w) sol = Val (t0 :: ts) ->
  settings (self w) = c ->
  G (prepared_solution sol) ->
  output_disabled c = true \/ conflict w sol = false ->
  log_ready w sol = true ->
  exists mid (sol1 : Solution Payload) evs fin r w',
    run api w = (r, w') /\
    trace w' = trace w ++ (entry_events (self w) s sol ++ [EvWriteGaugeValues] ++ mid
                             ++ [EvLogInfo (sol_start_frame sol) (sol_t sol1)])
                       ++ evs ++ fin /\
    forallb (init_event (F_path c)) mid = true /\
    forallb (loop_event (F_path c)) evs = true /\
    (forall gfs, (forall x, G x -> gauge_files x = gfs) -> flushed_after gfs evs) /\
    match compute_F c with
    | Some _ => exists line,
        flines mid = [line] /\ fs_text w' !! F_path c = Some ([line] ++ flines evs)
    | None => True
    end /\
    (failures evs = [] -> productive c -> ts <> [] -> exists st, r = Val (Some st)) /\
    match r with
    | Val (Some st) =>
        failures evs = [] /\ last (statuses evs) = Some st /\
        exists sol2, G sol2 /\ fin = map EvClose (gauge_files sol2)
    | Val None => False
    | Raised e =>
        fin = [] \/
        failures evs = [] /\ e = UnboundLocalError "status" /\
        exists sol2, G sol2 /\ fin = map EvClose (gauge_files sol2)
    end.
Proof.
  intros Hs Hsol Hr Hsch Hc HG Hok Hlog.
  destruct (run_through w s sol t0 ts)
    as (mid & sol1 & w1 & I1 & _ & _ & T1 & P1 & O1 & F1 & Hlp); try done.
  cbv zeta in Hlp. destruct Hlp as [(evs & T & L & Fl & Tx & O & R) Hrun].
  exists mid, sol1, evs.
  destruct (for_each ts (output_step api) _ w1) as [[acc|e] w2]; simpl in *.
  - destruct R as (I2 & Fa & S & B).
    destruct (finish_spec (snd acc) w2 I2) as (sol2 & w3 & Hsol2 & HG2 & E3 & T3 & F3).
    eexists (map EvClose (gauge_files sol2)), _, w3.
    split; [by rewrite Hrun, E3|].
    split; [by rewrite T3, T, T1, <- !app_assoc|].
    split; [done|]. split; [done|]. split; [done|].
    split.
    { destruct (compute_F c); [|done]. destruct F1 as (line & Hl & Hx).
      exists line. split; [done|]. rewrite F3. by apply (Tx [line]). }
    split.
    { intros _ Hp Hts. destruct B as [st Hst]; [done|]. rewrite Hst. eauto. }
    destruct (snd acc) as [st|] eqn:Hacc.
    + split; [done|]. split; [|by eauto].
      unfold status_after in S. destruct (last (statuses evs)); congruence.
    + right. eauto.
  - exists [], (Raised e), w2.
    split; [done|].
    split; [by rewrite T, T1, <- !app_assoc, app_nil_r|].
    split; [done|]. split; [done|]. split; [done|].
    split.
    { destruct (compute_F c); [|done]. destruct F1 as (line & Hl & Hx).
      exists line. split; [done|]. by apply (Tx [line]). }
    split; [|by left].
    intros Hfa _ _. destruct R as [R|[HcF Hw2]]; [done|].
    rewrite O in Hw2; [done | by apply O1].
Qed.
End Invariant.

(** * The claims *)

(** ** The entry phase and the empty schedule *)

Section Claims.
Context {Status Payload SolverSt : Type}.
Variable api : SolverAPI Status Payload SolverSt.
Implicit Types w : World Status Payload SolverSt.

Lemma entry_events_quiet (c : Controller Payload SolverSt) s sol (P : Event Status -> bool) :
  (forall d l, P (EvSetupGaugeFiles d l) = true) -> P EvSolverSetup = true ->
  forallb P (entry_events c s sol) = true.
Proof.
  intros H1 H2. unfold entry_events.
  destruct (0 <? Z.of_nat (length (gauges sol))), (is_set_up s); simpl;
    rewrite ?H1, ?H2; done.
Qed.

(** Everything before the loop is a [before_loop] call. *)
Lemma before_loop_prefix Fp (c : Controller Payload SolverSt) s sol mid k t :
  forallb (init_event Fp) mid = true ->
  forallb (before_loop (Status:=Status) Fp)
    (entry_events c s sol ++ [EvWriteGaugeValues] ++ mid ++ [EvLogInfo k t]) = true.
Proof.
  intros Hmid. rewrite !forallb_app, entry_events_quiet by done. simpl.
  rewrite (forallb_weaken (init_event Fp) (before_loop Fp)); [done | | done].
  by intros [].
Qed.

(** C2.  When the computed schedule is empty, [run] returns [None] without
    raising, prints the halting message, prints that [tfinal] has been
    reached exactly when the solution time equals [tfinal], and makes no
    call that writes output or the functional log, retains a snapshot,
    advances the frame counter or evolves the solution; the retained frames
    and the text files are as before. *)
Theorem empty_schedule_halts w s sol :
  solver (self w) = Some s -> solution (self w) = Some sol ->
  ready api s sol = true ->
  schedule api (self w) sol = Val [] ->
  exists evs w',
    run api w = (Val None, w') /\
    trace w' = trace w ++ evs /\
    forallb (fun e => negb (is_progress e)) evs = true /\
    In (EvPrint "No valid output times; halting.") evs /\
    (In (EvPrint "Simulation has already reached tfinal.") evs <->
     sol_t sol = tfinal (self w)) /\
    frames (self w') = frames (self w) /\
    fs_text w' = fs_text w.
Proof.
  intros Hs Hsol Hr Hsch.
  rewrite (run_ready api w s sol), Hsch, halt_entered by done.
  eexists _, _. split; [reflexivity|]. simpl.
  split; [reflexivity|].
  split.
  { rewrite forallb_app, entry_events_quiet by done. simpl.
    by destruct (bool_decide (sol_t sol = tfinal (self w))). }
  split; [apply in_or_app; right; simpl; auto|].
  split; [|done].
  rewrite in_app_iff. split.
  - intros [H|H].
    + exfalso. unfold entry_events in H.
      destruct (0 <? Z.of_nat (length (gauges sol))), (is_set_up s); simpl in H;
        intuition discriminate.
    + simpl in H. destruct H as [H|[H|H]]; try discriminate.
      destruct (bool_decide_reflect (sol_t sol = tfinal (self w))); [done|].
      by destruct H.
  - intros H. right. rewrite bool_decide_true by done. simpl. auto.
Qed.

(** C8, as amended.  When solver or solution is missing, [run] raises
    with the world untouched.  When the validity check of line 312 fails,
    [run] raises its error after the gauge files were set up (if the grid
    has gauges) and the solver was set up (if it was not yet): these are the
    only calls made; no gauge value is written, nothing is output, retained
    frames and text files are as before. *)
Theorem entry_failure_effects w :
  (solver (self w) = None \/ solution (self w) = None ->
   run api w = (Raised NoSolverOrSolution, w)) /\
  (forall s sol,
     solver (self w) = Some s -> solution (self w) = Some sol ->
     ready api s sol = false ->
     exists e w',
       run api w = (Raised e, w') /\ validity_exn e /\
       trace w' = trace w ++ entry_events (self w) s sol /\
       frames (self w') = frames (self w) /\
       fs_text w' = fs_text w).
Proof.
  split.
  - intros H. unfold run, bind. by rewrite prepare_absent.
  - intros s sol Hs Hsol Hr.
    destruct (prepare_not_ready api w s sol Hs Hsol Hr) as (e & He & Hv).
    exists e, (set_up api w s sol). unfold run, bind. by rewrite He.
Qed.

(** ** Runs that reach the initial output point *)

(** [run_through], [run_conflict] and [run_blocked] when nothing is asked
    of the solution. *)
Lemma run_past_check w s sol t0 ts :
  solver (self w) = Some s -> solution (self w) = Some sol ->
  ready api s sol = true ->
  schedule api (self w) sol = Val (t0 :: ts) ->
  output_disabled (self w) = true \/ conflict w sol = false ->
  log_ready w sol = true ->
  exists mid (sol1 : Solution Payload) w1,
    let c := settings (self w) in
    let G := fun _ : Solution Payload => True in
    Inv G c w1 /\
    trace w1 = trace w ++ entry_events (self w) s sol ++ [EvWriteGaugeValues] ++ mid
                       ++ [EvLogInfo (sol_start_frame sol) (sol_t sol1)] /\
    forallb (init_event (F_path c)) mid = true /\
    match compute_F c with
    | Some _ => exists line, flines mid = [line] /\ fs_text w1 !! F_path c = Some [line]
    | None => flines mid = [] /\ fs_text w1 = fs_text w
    end /\
    let lp := for_each ts (output_step api) (FrameCounter.mk (sol_start_frame sol), None) w1 in
    step_post G c (productive c /\ ts <> []) snd None w1 lp /\
    run api w = match lp.1 with
                | Val acc => finish (snd acc) lp.2
                | Raised e => (Raised e, lp.2)
                end.
Proof.
  intros Hs Hsol Hr Hsch Hok Hlog.
  destruct (run_through api (fun _ => True) (settings (self w))
              (fun _ _ _ => I) (fun _ _ _ _ _ _ _ _ => I) w s sol t0 ts)
    as (mid & sol1 & w1 & I1 & _ & _ & T1 & P1 & _ & F1 & Hlp); try done.
  by exists mid, sol1, w1.
Qed.

Lemma run_stopped w s sol t0 ts :
  solver (self w) = Some s -> solution (self w) = Some sol ->
  ready api s sol = true ->
  schedule api (self w) sol = Val (t0 :: ts) ->
  output_disabled (self w) = false -> conflict w sol = true ->
  exists w',
    run api w = (Raised RefuseOverwrite, w') /\
    trace w' = trace w ++ entry_events (self w) s sol ++ [EvWriteGaugeValues]
                       ++ (if keep_copy (self w) then [EvKeepCopy] else []) /\
    fs_text w' = fs_text w /\
    fs_exists w' = fs_exists (entered api w s sol).
Proof.
  intros Hs Hsol Hr Hsch Hout Hcf.
  by apply (run_conflict api (fun _ => True) (settings (self w))
              (fun _ _ _ => I) (fun _ _ _ _ _ _ _ _ => I) w s sol t0 ts).
Qed.

Lemma run_stuck w s sol t0 ts :
  solver (self w) = Some s -> solution (self w) = Some sol ->
  ready api s sol = true ->
  schedule api (self w) sol = Val (t0 :: ts) ->
  output_disabled (self w) = true \/ conflict w sol = false ->
  log_ready w sol = false ->
  exists mid w',
    run api w = (Raised (IOError (F_path (self w))), w') /\
    trace w' = trace w ++ entry_events (self w) s sol ++ [EvWriteGaugeValues]
                       ++ mid ++ [EvComputeF] /\
    forallb is_snapshot mid = true /\
    fs_text w' = fs_text w /\
    fs_exists w' = fs_exists (entered api w s sol).
Proof.
  intros Hs Hsol Hr Hsch Hok Hlog.
  by apply (run_blocked api (fun _ => True) (settings (self w))
              (fun _ _ _ => I) (fun _ _ _ _ _ _ _ _ => I) w s sol t0 ts).
Qed.

(** The calls of a run stopped at line 432 of the initial output point. *)
Lemma stuck_events_early (c : Controller Payload SolverSt) s sol
    (mid : list (Event Status)) :
  forallb is_snapshot mid = true ->
  forallb early_event
    (entry_events c s sol ++ [EvWriteGaugeValues] ++ mid ++ [EvComputeF]) = true.
Proof.
  intros Hmid. rewrite !forallb_app, entry_events_quiet by done. simpl.
  rewrite (forallb_weaken is_snapshot early_event); [done | | done].
  by intros [].
Qed.

(** C3, as amended.  In a run that reaches the initial output point (the
    entry checks pass and the schedule is not empty): if output is enabled,
    and the output directory exists at line 342 while [output_clobber] is
    off, [run] raises the refusal; the calls made until then are the gauge
    set-up of line 303 (when the grid has gauges), the solver set-up (when
    it was not yet set up), the initial [write_gauge_values] and, with
    [keep_copy], the retention of the initial frame, and no other: no
    snapshot and no functional-log line is written, the text files are as
    before and, without gauges, so are the existing paths.  If output is
    disabled, the check is skipped and the run goes on to lines 368-371:
    the initial output point is produced, unless there is a functional and
    line 432 does not find the directory of its log, in which case [run]
    raises the [IOError] of [open] after [compute_F] was called. *)
Theorem refuses_overwrite w s sol t0 ts :
  solver (self w) = Some s -> solution (self w) = Some sol ->
  ready api s sol = true ->
  schedule api (self w) sol = Val (t0 :: ts) ->
  (output_disabled (self w) = false -> conflict w sol = true ->
   exists w',
     run api w = (Raised RefuseOverwrite, w') /\
     trace w' = trace w ++ entry_events (self w) s sol ++ [EvWriteGaugeValues]
                        ++ (if keep_copy (self w) then [EvKeepCopy] else []) /\
     fs_text w' = fs_text w /\
     (gauges sol = [] -> fs_exists w' = fs_exists w)) /\
  (output_disabled (self w) = true ->
   exists evs,
     trace (run api w).2 = trace w ++ evs /\
     if log_ready w sol then existsb is_output_point evs = true
     else (run api w).1 = Raised (IOError (F_path (self w))) /\ In EvComputeF evs).
Proof.
  intros Hs Hsol Hr Hsch. split.
  - intros Hout Hcf.
    destruct (run_stopped w s sol t0 ts) as (w' & E & T & F & X); try done.
    exists w'. split; [done|]. split; [exact T|]. split; [done|].
    intros Hg. rewrite X. unfold entered, set_up. simpl. by rewrite Hg.
  - intros Hout. destruct (log_ready w sol) eqn:Hlog.
    2: { destruct (run_stuck w s sol t0 ts) as (mid & w' & E & T & _); auto.
         rewrite E. eexists. split; [exact T|]. split; [done|].
         rewrite !in_app_iff. simpl. auto. }
    destruct (run_past_check w s sol t0 ts) as (mid & sol1 & w1 & H); auto.
    cbv zeta in H. destruct H as (I1 & T1 & P1 & F1 & Hpost & Hrun).
    destruct Hpost as (evs & T & _ & _ & _ & _ & R).
    assert (exists rest, trace (run api w).2 = trace w1 ++ rest) as [rest Hrest].
    { rewrite Hrun.
      destruct (for_each ts (output_step api) _ w1) as [[acc|e] w2]; simpl in *.
      - destruct R as (I2 & _).
        destruct (finish_spec (fun _ => True) _ (snd acc) w2 I2)
          as (sol2 & w3 & _ & _ & E3 & T3 & _).
        rewrite E3. simpl. rewrite T3, T, <- app_assoc. eauto.
      - eauto. }
    eexists. split.
    + rewrite Hrest, T1, <- !app_assoc. reflexivity.
    + rewrite !existsb_app. simpl. by rewrite !orb_true_r.
Qed.

(** C10, as amended.  With a schedule of exactly one entry [run] never
    returns: it raises.  When the entry checks pass, line 342 does not
    refuse and line 432 finds the directory of the functional log, the run
    makes no evolution call and no frame advance, and the error is that of
    reading the unbound local [status].  And whenever [run] returns a
    status, the schedule had at least two entries. *)
Theorem single_entry_schedule_raises w s sol :
  solver (self w) = Some s -> solution (self w) = Some sol ->
  (forall t0,
     ready api s sol = true ->
     schedule api (self w) sol = Val [t0] ->
     output_disabled (self w) = true \/ conflict w sol = false ->
     log_ready w sol = true ->
     exists evs w',
       run api w = (Raised (UnboundLocalError "status"), w') /\
       trace w' = trace w ++ evs /\
       forallb (fun e => negb (is_step e)) evs = true) /\
  (forall t0,
     schedule api (self w) sol = Val [t0] ->
     exists e, (run api w).1 = Raised e) /\
  (forall st w',
     run api w = (Val (Some st), w') ->
     exists t0 t1 ts, schedule api (self w) sol = Val (t0 :: t1 :: ts)).
Proof.
  intros Hs Hsol.
  assert (forall t0,
     ready api s sol = true ->
     schedule api (self w) sol = Val [t0] ->
     output_disabled (self w) = true \/ conflict w sol = false ->
     log_ready w sol = true ->
     exists evs w',
       run api w = (Raised (UnboundLocalError "status"), w') /\
       trace w' = trace w ++ evs /\
       forallb (fun e => negb (is_step e)) evs = true) as Hone.
  { intros t0 Hr Hsch Hok Hlog.
    destruct (run_past_check w s sol t0 []) as (mid & sol1 & w1 & H); auto.
    cbv zeta in H. destruct H as (I1 & T1 & P1 & F1 & _ & Hrun). simpl in Hrun.
    destruct (finish_spec (fun _ => True) _ None w1 I1) as (sol2 & w2 & _ & _ & E & T & _).
    eexists _, w2. split; [by rewrite Hrun|].
    split; [by rewrite T, T1, <- !app_assoc|].
    rewrite !app_assoc, forallb_app, <- !app_assoc. apply andb_true_iff. split.
    - eapply forallb_weaken; [|by apply before_loop_prefix]. by intros [].
    - by apply forallb_map_all. }
  assert (forall t0,
     schedule api (self w) sol = Val [t0] ->
     exists e, (run api w).1 = Raised e) as Hraise.
  { intros t0 Hsch.
    destruct (ready api s sol) eqn:Hr.
    2: { destruct (prepare_not_ready api w s sol Hs Hsol Hr) as (e & He & _).
         exists e. unfold run, bind. by rewrite He. }
    destruct (output_disabled (self w) || negb (conflict w sol)) eqn:Hpass.
    - assert (output_disabled (self w) = true \/ conflict w sol = false) as Hok
        by (destruct (output_disabled (self w)), (conflict w sol); auto).
      destruct (log_ready w sol) eqn:Hlog.
      + destruct (Hone t0) as (evs & w2 & E & _); auto. rewrite E. eauto.
      + destruct (run_stuck w s sol t0 []) as (mid & w2 & E & _); auto.
        rewrite E. eauto.
    - apply orb_false_iff in Hpass as [Hout Hcf]. apply negb_false_iff in Hcf.
      destruct (run_stopped w s sol t0 []) as (w2 & E & _); try done.
      rewrite E. eauto. }
  split; [done|]. split; [done|].
  intros st w' Hrun.
  destruct (ready api s sol) eqn:Hr.
  2: { destruct (prepare_not_ready api w s sol Hs Hsol Hr) as (e & He & _).
       unfold run, bind in Hrun. by rewrite He in Hrun. }
  destruct (schedule api (self w) sol) as [[|t0 [|t1 ts]]|e] eqn:Hsch.
  - rewrite (run_ready api w s sol), Hsch, halt_entered in Hrun by done. discriminate.
  - destruct (Hraise t0 eq_refl) as [e He]. rewrite Hrun in He. discriminate.
  - eauto.
  - rewrite (run_ready api w s sol), Hsch in Hrun by done. discriminate.
Qed.

(** How a run with a solver and a solution can go: it ends early (entry
    check, schedule error, empty schedule, line 342, or line 432 at the
    initial output point), or it gets past line 368. *)
Lemma run_cases w s sol :
  solver (self w) = Some s -> solution (self w) = Some sol ->
  (exists pre r w',
     run api w = (r, w') /\ trace w' = trace w ++ pre /\
     forallb early_event pre = true /\ fs_text w' = fs_text w /\
     forall st, r <> Val (Some st)) \/
  (exists t0 ts,
     ready api s sol = true /\ schedule api (self w) sol = Val (t0 :: ts) /\
     (output_disabled (self w) = true \/ conflict w sol = false) /\
     log_ready w sol = true).
Proof.
  intros Hs Hsol.
  destruct (ready api s sol) eqn:Hr.
  2: { left. destruct (prepare_not_ready api w s sol Hs Hsol Hr) as (e & He & _).
       exists (entry_events (self w) s sol), (Raised e), (set_up api w s sol).
       unfold run, bind. rewrite He.
       split; [done|]. split; [done|]. split; [by apply entry_events_quiet | done]. }
  destruct (schedule api (self w) sol) as [[|t0 ts]|e] eqn:Hsch.
  - left. eexists _, _, _.
    split; [by rewrite (run_ready api w s sol), Hsch, halt_entered|]. simpl.
    split; [reflexivity|].
    split; [|done]. rewrite forallb_app, entry_events_quiet by done. simpl.
    by destruct (bool_decide (sol_t sol = tfinal (self w))).
  - destruct (output_disabled (self w) || negb (conflict w sol)) eqn:Hpass.
    + assert (output_disabled (self w) = true \/ conflict w sol = false) as Hok
        by (destruct (output_disabled (self w)), (conflict w sol); auto).
      destruct (log_ready w sol) eqn:Hlog; [right; by eauto 6|].
      left. destruct (run_stuck w s sol t0 ts) as (mid & w' & E & T & P & F & _); try done.
      eexists _, _, w'. split; [exact E|]. split; [exact T|].
      split; [by apply stuck_events_early | done].
    + apply orb_false_iff in Hpass as [Hout Hcf]. apply negb_false_iff in Hcf.
      left. destruct (run_stopped w s sol t0 ts) as (w' & E & T & F & _); try done.
      eexists _, _, w'. split; [exact E|]. split; [exact T|].
      split; [|done]. rewrite forallb_app, entry_events_quiet by done.
      by destruct (keep_copy (self w)).
  - left. exists (entry_events (self w) s sol ++ [EvWriteGaugeValues]), (Raised e),
      (entered api w s sol).
    split; [by rewrite (run_ready api w s sol), Hsch|].
    split; [done|]. split; [|done].
    by rewrite forallb_app, entry_events_quiet.
Qed.

(** The end of the trace of [run_outcome] holds no functional line, status
    or failure, and no output point. *)
Lemma fin_quiet (G : Solution Payload -> Prop) (r : res (option Status))
    (evs fin : list (Event Status)) :
  match r with
  | Val (Some st) =>
      failures evs = [] /\ last (statuses evs) = Some st /\
      exists sol2, G sol2 /\ fin = map EvClose (gauge_files sol2)
  | Val None => False
  | Raised e =>
      fin = [] \/
      failures evs = [] /\ e = UnboundLocalError "status" /\
      exists sol2, G sol2 /\ fin = map EvClose (gauge_files sol2)
  end ->
  exists l : list gfile, fin = map EvClose l.
Proof.
  destruct r as [[st|]|e]; [| done |].
  - intros (_ & _ & sol2 & _ & ->). eauto.
  - intros [->|(_ & _ & sol2 & _ & ->)]; [by exists [] | eauto].
Qed.

(** A run without solver or solution returns nothing. *)
Lemma returned_has_parts w st w' :
  run api w = (Val (Some st), w') ->
  exists s sol, solver (self w) = Some s /\ solution (self w) = Some sol.
Proof.
  intros Hrun.
  destruct (solver (self w)) as [s|] eqn:Hs.
  2: { unfold run, bind in Hrun. by rewrite prepare_absent in Hrun by auto. }
  destruct (solution (self w)) as [sol|] eqn:Hsol.
  2: { unfold run, bind in Hrun. by rewrite prepare_absent in Hrun by auto. }
  eauto.
Qed.

(** C9, as amended.  Whenever [run] returns a status, it is the status
    that the last evolution call of the run returned.  And [run] does
    return a status when the schedule has at least two entries, the run
    gets past the entry checks, line 342 and line 432 of the initial output
    point, each pass of the loop calls the solver (style 1 or 2, or
    [nstepout >= 1]) and no evolution call of the run fails. *)
Theorem run_returns_last_status w :
  (forall st w',
     run api w = (Val (Some st), w') ->
     exists evs, trace w' = trace w ++ evs /\ last (statuses evs) = Some st) /\
  (forall s sol t0 t1 ts,
     solver (self w) = Some s -> solution (self w) = Some sol ->
     ready api s sol = true ->
     schedule api (self w) sol = Val (t0 :: t1 :: ts) ->
     output_disabled (self w) = true \/ conflict w sol = false ->
     log_ready w sol = true ->
     productive (self w) ->
     exists evs,
       trace (run api w).2 = trace w ++ evs /\
       (failures evs = [] ->
        exists st, (run api w).1 = Val (Some st) /\ last (statuses evs) = Some st)).
Proof.
  assert (forall s sol t0 ts,
    solver (self w) = Some s -> solution (self w) = Some sol ->
    ready api s sol = true ->
    schedule api (self w) sol = Val (t0 :: ts) ->
    output_disabled (self w) = true \/ conflict w sol = false ->
    log_ready w sol = true ->
    exists evs,
      trace (run api w).2 = trace w ++ evs /\
      (forall st, (run api w).1 = Val (Some st) -> last (statuses evs) = Some st) /\
      (failures evs = [] -> productive (self w) -> ts <> [] ->
       exists st, (run api w).1 = Val (Some st))) as Hgen.
  { intros s sol t0 ts Hs Hsol Hr Hsch Hok Hlog.
    destruct (run_outcome api (fun _ => True) (settings (self w))
                (fun _ _ _ => I) (fun _ _ _ _ _ _ _ _ => I) w s sol t0 ts)
      as (mid & sol1 & evs & fin & r & w' & E & T & P1 & L & Fl & HF & Hval & R); try done.
    rewrite E. eexists. split; [exact T|]. cbn [fst snd].
    assert (forallb (before_loop (F_path (self w)))
              (entry_events (self w) s sol ++ [EvWriteGaugeValues] ++ mid
                 ++ [EvLogInfo (sol_start_frame sol) (sol_t sol1)]) = true) as Hpre
      by (by apply before_loop_prefix).
    set (pre := entry_events (self w) s sol ++ [EvWriteGaugeValues] ++ mid
                  ++ [EvLogInfo (sol_start_frame sol) (sol_t sol1)]) in *.
    assert (statuses pre = []) as Hs1
      by (eapply forallb_omap_nil; [|exact Hpre]; by intros []).
    assert (failures pre = []) as Hf1
      by (eapply forallb_omap_nil; [|exact Hpre]; by intros []).
    destruct (fin_quiet _ _ _ _ R) as [l Hfin].
    split.
    - intros st ->. destruct R as (_ & Hlast & _).
      by rewrite statuses_app, Hs1, statuses_app, Hfin, statuses_map_close, app_nil_r.
    - intros Hfa Hp Hts. apply Hval; [|done|done].
      rewrite failures_app, Hf1, failures_app, Hfin, failures_map_close, app_nil_r in Hfa.
      exact Hfa. }
  split.
  - intros st w' Hrun.
    destruct (returned_has_parts w st w' Hrun) as (s & sol & Hs & Hsol).
    destruct (run_cases w s sol Hs Hsol)
      as [(pre & r & w1 & E & _ & _ & _ & Hne) | (t0 & ts & Hr & Hsch & Hok & Hlog)].
    { rewrite Hrun in E. injection E as <- <-. by destruct (Hne st). }
    destruct (Hgen s sol t0 ts) as (evs & T & Hlast & _); try done.
    rewrite Hrun in T, Hlast. exists evs. split; [exact T|]. by apply Hlast.
  - intros s sol t0 t1 ts Hs Hsol Hr Hsch Hok Hlog Hp.
    destruct (Hgen s sol t0 (t1 :: ts)) as (evs & T & Hlast & Hret); try done.
    exists evs. split; [exact T|]. intros Hfa.
    destruct Hret as [st Hst]; [done | done | done |].
    exists st. split; [done|]. by apply Hlast.
Qed.


(** ** The gauge streams *)

Lemma flushed_after_first_all_quiet gfs (a : list (Event Status)) :
  forallb (fun e => negb (is_output_point e)) a = true -> flushed_after_first gfs a.
Proof.
  induction a as [|e a IH]; simpl; [done|].
  intros [He Ha]%andb_true_iff. destruct (is_output_point e); [done | by apply IH].
Qed.

(** The streams of the solution stay what they were after line 303 when
    the solver keeps them. *)
Lemma same_streams_evolve gfs :
  keeps_gauge_files api ->
  forall (s : Solver SolverSt) (x : Solution Payload) tend (st : Status) s' x',
    gauge_files x = gfs -> evolve_to_time api s x tend = inr (st, s', x') ->
    gauge_files x' = gfs.
Proof. intros Hk s x tend st s' x' Hx He. by rewrite (Hk _ _ _ _ _ _ He). Qed.

(** C4, as amended.  In every run with a solver that keeps the gauge
    streams in place, each output point after the first one is directly
    followed by a flush of every gauge stream.  Nothing is said of the
    first output point, that of the initial frame. *)
Theorem flushes_after_later_points w s sol :
  solver (self w) = Some s -> solution (self w) = Some sol ->
  keeps_gauge_files api ->
  exists evs,
    trace (run api w).2 = trace w ++ evs /\
    flushed_after_first (gauge_files (prepared_solution sol)) evs.
Proof.
  intros Hs Hsol Hk.
  destruct (run_cases w s sol Hs Hsol)
    as [(pre & r & w' & E & T & P & _) | (t0 & ts & Hr & Hsch & Hok & Hlog)].
  - rewrite E. exists pre. split; [done|].
    apply flushed_after_first_all_quiet. eapply forallb_weaken; [|exact P]. by intros [].
  - destruct (run_outcome api (fun x => gauge_files x = gauge_files (prepared_solution sol))
                (settings (self w)) (fun _ _ H => H) (same_streams_evolve _ Hk)
                w s sol t0 ts)
      as (mid & sol1 & evs & fin & r & w' & E & T & P1 & L & Fl & HF & Hval & R); try done.
    rewrite E. eexists. split; [exact T|].
    replace ((entry_events (self w) s sol ++ [EvWriteGaugeValues] ++ mid
                ++ [EvLogInfo (sol_start_frame sol) (sol_t sol1)]) ++ evs ++ fin)
      with ((entry_events (self w) s sol ++ [EvWriteGaugeValues] ++ mid)
              ++ [EvLogInfo (sol_start_frame sol) (sol_t sol1)] ++ evs ++ fin)
      by (by rewrite <- !app_assoc).
    rewrite flushed_after_first_quiet.
    + simpl. apply flushed_after_app; [by apply Fl|].
      destruct (fin_quiet _ _ _ _ R) as [l ->].
      apply flushed_after_quiet. by apply forallb_map_all.
    + rewrite forallb_app. apply andb_true_iff. split.
      * eapply forallb_weaken; [|by apply (entry_events_quiet _ _ _ early_event)].
        by intros [].
      * simpl. eapply forallb_weaken; [|exact P1]. by intros [].
Qed.

(** C5, as amended.  In a run that sets up gauge streams, with a solver
    that keeps them in place: when [run] returns a status, the streams
    closed during the run are the streams opened at line 303, each once;
    when an evolution call fails, [run] raises and no stream is closed. *)
Theorem closes_on_success w s sol :
  solver (self w) = Some s -> solution (self w) = Some sol ->
  keeps_gauge_files api ->
  0 < Z.of_nat (length (gauges sol)) ->
  exists evs,
    trace (run api w).2 = trace w ++ evs /\
    (forall st, (run api w).1 = Val (Some st) ->
       closed evs = seq 0 (length (gauges sol)) /\ NoDup (closed evs)) /\
    (failures evs <> [] ->
       closed evs = [] /\ exists e, (run api w).1 = Raised e).
Proof.
  intros Hs Hsol Hk Hg.
  destruct (run_cases w s sol Hs Hsol)
    as [(pre & r & w' & E & T & P & _ & Hr) | (t0 & ts & Hr & Hsch & Hok & Hlog)].
  - rewrite E. exists pre. split; [done|]. simpl. split.
    + intros st ->. by destruct (Hr st).
    + intros Hf. exfalso. apply Hf.
      by apply (forallb_omap_nil early_event); [intros []|].
  - destruct (run_outcome api (fun x => gauge_files x = gauge_files (prepared_solution sol))
                (settings (self w)) (fun _ _ H => H) (same_streams_evolve _ Hk)
                w s sol t0 ts)
      as (mid & sol1 & evs & fin & r & w' & E & T & P1 & L & Fl & HF & Hval & R); try done.
    rewrite E. eexists. split; [exact T|]. cbn [fst snd].
    assert (forallb (before_loop (F_path (self w)))
              (entry_events (self w) s sol ++ [EvWriteGaugeValues] ++ mid
                 ++ [EvLogInfo (sol_start_frame sol) (sol_t sol1)]) = true) as Hpre
      by (by apply before_loop_prefix).
    set (pre := entry_events (self w) s sol ++ [EvWriteGaugeValues] ++ mid
                  ++ [EvLogInfo (sol_start_frame sol) (sol_t sol1)]) in *.
    assert (closed pre = []) as Hc1
      by (eapply forallb_omap_nil; [|exact Hpre]; by intros []).
    assert (failures pre = []) as Hf1
      by (eapply forallb_omap_nil; [|exact Hpre]; by intros []).
    assert (closed evs = []) as Hc2
      by (eapply forallb_omap_nil; [|exact L]; by intros []).
    assert (failures fin = []) as Hf3
      by (destruct (fin_quiet _ _ _ _ R) as [l ->]; apply failures_map_close).
    rewrite closed_app, closed_app, failures_app, failures_app, Hc1, Hf1, Hc2, Hf3.
    simpl. rewrite app_nil_r. split.
    + intros st ->. destruct R as (_ & _ & sol2 & Hsol2 & ->).
      rewrite closed_map_close, Hsol2. unfold prepared_solution.
      destruct (Z.ltb_spec 0 (Z.of_nat (length (gauges sol)))); [|lia].
      simpl. split; [done | apply NoDup_seq].
    + intros Hf. destruct r as [[st|]|e]; [by destruct R | done |].
      destruct R as [->|[Hf' _]]; [by eauto | done].
Qed.
End Claims.

(** ** The claims on the examples *)

Lemma steady_keeps_gauge_files : keeps_gauge_files Demo.steady.
Proof.
  intros s x tend st s' x' H. injection H as _ _ H. rewrite <- H. reflexivity.
Defined.

Lemma broken_keeps_gauge_files : keeps_gauge_files Demo.broken.
Proof. intros s x tend st s' x' H. discriminate H. Defined.

(** An empty schedule ([num_output_times = -1]). *)
Lemma empty_schedule_halts_witness :
  exists evs w',
    run Demo.steady (Demo.plain (-1)) = (Val None, w') /\
    trace w' = trace (Demo.plain (-1)) ++ evs /\
    forallb (fun e => negb (is_progress e)) evs = true /\
    In (EvPrint "No valid output times; halting.") evs /\
    (In (EvPrint "Simulation has already reached tfinal.") evs <->
     Np.of_Z 0 = tfinal (self (Demo.plain (-1)))) /\
    frames (self w') = frames (self (Demo.plain (-1))) /\
    fs_text w' = fs_text (Demo.plain (-1)).
Proof.
  apply (empty_schedule_halts Demo.steady (Demo.plain (-1)) Demo.solver0
           (Demo.solution0 (Np.of_Z 0) 0 [])); reflexivity.
Defined.

(** C3 as stated fails in two ways.  When the schedule is empty: the
    output directory exists, overwriting is off and output is enabled, yet
    [run] returns [None] and raises nothing.  And when the grid has gauges:
    in the run of [Demo.fenced] the refusal is raised only after line 303
    has set up the gauge files in the output directory and line 315 has
    written the initial gauge values. *)
Lemma existing_outdir_not_refused :
  (bool_decide (outdir (self (Demo.guarded (-1))) ∈ fs_exists (Demo.guarded (-1))) = true /\
   output_clobber (self (Demo.guarded (-1))) = false /\
   output_disabled (self (Demo.guarded (-1))) = false /\
   (run Demo.steady (Demo.guarded (-1))).1 = Val None) /\
  (bool_decide (outdir (self Demo.fenced) ∈ fs_exists Demo.fenced) = true /\
   output_clobber (self Demo.fenced) = false /\
   output_disabled (self Demo.fenced) = false /\
   (run Demo.steady Demo.fenced).1 = Raised RefuseOverwrite /\
   trace (run Demo.steady Demo.fenced).2 =
     [EvSetupGaugeFiles "/run/_output" [0; 1]%nat; EvSolverSetup; EvWriteGaugeValues]).
Proof. vm_compute. auto 10. Qed.

Lemma refuses_overwrite_witness :
  (exists w',
     run Demo.steady (Demo.guarded 2) = (Raised RefuseOverwrite, w') /\
     trace w' = trace (Demo.guarded 2)
                ++ entry_events (self (Demo.guarded 2)) Demo.solver0
                     (Demo.solution0 (Np.of_Z 0) 0 [])
                ++ [EvWriteGaugeValues]
                ++ (if keep_copy (self (Demo.guarded 2)) then [EvKeepCopy] else []) /\
     fs_text w' = fs_text (Demo.guarded 2) /\
     (gauges (Demo.solution0 (Np.of_Z 0) 0 []) = [] ->
      fs_exists w' = fs_exists (Demo.guarded 2))) /\
  (exists evs,
     trace (run Demo.steady Demo.silent).2 = trace Demo.silent ++ evs /\
     existsb is_output_point evs = true).
Proof.
  split.
  - assert (exists t0 ts,
              schedule Demo.steady (self (Demo.guarded 2)) (Demo.solution0 (Np.of_Z 0) 0 [])
              = Val (t0 :: ts)) as (t0 & ts & Hsch)
      by (vm_compute; eauto).
    apply (refuses_overwrite Demo.steady (Demo.guarded 2) Demo.solver0
             (Demo.solution0 (Np.of_Z 0) 0 []) t0 ts);
      [reflexivity | reflexivity | reflexivity | exact Hsch | reflexivity
      | vm_compute; reflexivity].
  - assert (exists t0 ts,
              schedule Demo.steady (self Demo.silent) (Demo.solution0 (Np.of_Z 0) 0 [])
              = Val (t0 :: ts)) as (t0 & ts & Hsch)
      by (vm_compute; eauto).
    apply (refuses_overwrite Demo.steady Demo.silent Demo.solver0
             (Demo.solution0 (Np.of_Z 0) 0 []) t0 ts);
      [reflexivity | reflexivity | reflexivity | exact Hsch | reflexivity].
Defined.

(** C4 as stated fails at the initial output point: in the run of
    [Demo.gauged] the progress line of frame 0 is followed by the first
    evolution call, not by a flush of the streams 0 and 1. *)
Lemma initial_point_not_flushed :
  In (EvSetupGaugeFiles "/run/_output" [0; 1]%nat) (trace (run Demo.steady Demo.gauged).2) /\
  ~ flushed_after [0; 1]%nat (trace (run Demo.steady Demo.gauged).2).
Proof.
  split; [vm_compute; auto|].
  intros H. apply (flushed_after_drop _ 8) in H.
  assert (match drop 8 (trace (run Demo.steady Demo.gauged).2) with
          | EvLogInfo _ _ :: EvEvolve _ _ :: _ => true
          | _ => false
          end = true) as Hshape by (vm_compute; reflexivity).
  destruct (drop 8 (trace (run Demo.steady Demo.gauged).2)) as [|[] [|[] rest]];
    try discriminate Hshape.
  destruct H as [H _]. destruct (H eq_refl) as [rest' Hrest]. discriminate Hrest.
Qed.

Lemma flushes_after_later_points_witness :
  exists evs,
    trace (run Demo.steady Demo.gauged).2 = trace Demo.gauged ++ evs /\
    flushed_after_first [0; 1]%nat evs.
Proof.
  apply (flushes_after_later_points Demo.steady Demo.gauged Demo.solver0
           (Demo.solution0 (Np.of_Z 0) 0 [7; 9]%nat));
    [reflexivity | reflexivity | exact steady_keeps_gauge_files].
Defined.

(** C5 as stated fails on a propagated failure: the solver of
    [Demo.broken] raises in the first evolution call, [run] raises with
    it, and the two streams opened at line 303 are never closed. *)
Lemma failure_leaves_streams_open :
  (run Demo.broken Demo.gauged).1 = Raised (SolverFailure "blow-up") /\
  In (EvSetupGaugeFiles "/run/_output" [0; 1]%nat) (trace (run Demo.broken Demo.gauged).2) /\
  closed (trace (run Demo.broken Demo.gauged).2) = [].
Proof. vm_compute. auto. Qed.

Lemma closes_on_success_witness :
  exists evs,
    trace (run Demo.steady Demo.gauged).2 = trace Demo.gauged ++ evs /\
    (forall st, (run Demo.steady Demo.gauged).1 = Val (Some st) ->
       closed evs = seq 0 2 /\ NoDup (closed evs)) /\
    (failures evs <> [] ->
       closed evs = [] /\ exists e, (run Demo.steady Demo.gauged).1 = Raised e).
Proof.
  apply (closes_on_success Demo.steady Demo.gauged Demo.solver0
           (Demo.solution0 (Np.of_Z 0) 0 [7; 9]%nat));
    [reflexivity | reflexivity | exact steady_keeps_gauge_files | simpl; lia].
Defined.

(** C6 on the code.  In the run of [Demo.gauged] ([compute_p] set, output
    enabled, output directory [/run/_output]) the derived-quantity snapshot
    of frame 0 goes to [/run/_output/_p], those of frames 1 and 2 go to
    [/run/_output], where the main snapshots go. *)
Theorem derived_snapshot_paths :
  derived_paths (trace (run Demo.steady Demo.gauged).2) =
    [(0, "/run/_output/_p"); (1, "/run/_output"); (2, "/run/_output")]%string /\
  main_paths (trace (run Demo.steady Demo.gauged).2) =
    [(0, "/run/_output"); (1, "/run/_output"); (2, "/run/_output")]%string /\
  outdir_p (self Demo.gauged) = "/run/_output/_p"%string.
Proof. vm_compute. auto. Qed.



(** C8 as stated fails when the validity check fails: the solver of
    [Demo.invalid] reports itself invalid, and [run] raises that only after
    the gauge files and the solver were set up. *)
Lemma invalid_solver_side_effects :
  (run Demo.invalid Demo.gauged).1 = Raised (SolverInvalid "no Riemann solver") /\
  trace (run Demo.invalid Demo.gauged).2 =
    [EvSetupGaugeFiles "/run/_output" [0; 1]%nat; EvSolverSetup].
Proof. vm_compute. auto. Qed.

Lemma entry_failure_effects_witness :
  exists e w',
    run Demo.invalid Demo.gauged = (Raised e, w') /\ validity_exn e /\
    trace w' = trace Demo.gauged
               ++ entry_events (self Demo.gauged) Demo.solver0
                    (Demo.solution0 (Np.of_Z 0) 0 [7; 9]%nat) /\
    frames (self w') = frames (self Demo.gauged) /\
    fs_text w' = fs_text Demo.gauged.
Proof.
  apply (proj2 (entry_failure_effects Demo.invalid Demo.gauged) Demo.solver0
           (Demo.solution0 (Np.of_Z 0) 0 [7; 9]%nat));
    reflexivity.
Defined.

Lemma run_returns_last_status_witness :
  (exists evs,
     trace (run Demo.steady (Demo.plain 2)).2 = trace (Demo.plain 2) ++ evs /\
     last (statuses evs) = Some 2) /\
  (exists evs,
     trace (run Demo.steady (Demo.plain 2)).2 = trace (Demo.plain 2) ++ evs /\
     (failures evs = [] ->
      exists st, (run Demo.steady (Demo.plain 2)).1 = Val (Some st) /\
                 last (statuses evs) = Some st)).
Proof.
  split.
  - apply (proj1 (run_returns_last_status Demo.steady (Demo.plain 2)) 2
             (run Demo.steady (Demo.plain 2)).2).
    vm_compute. reflexivity.
  - assert (exists t0 t1 ts,
              schedule Demo.steady (self (Demo.plain 2)) (Demo.solution0 (Np.of_Z 0) 0 [])
              = Val (t0 :: t1 :: ts)) as (t0 & t1 & ts & Hsch)
      by (vm_compute; eauto).
    apply (proj2 (run_returns_last_status Demo.steady (Demo.plain 2)) Demo.solver0
             (Demo.solution0 (Np.of_Z 0) 0 []) t0 t1 ts);
      [reflexivity | reflexivity | reflexivity | exact Hsch | right; reflexivity
      | reflexivity | left; simpl; lia].
Defined.

(** C10 as stated fails when line 342 refuses and when line 432 cannot
    open the functional log: the schedules of [Demo.guarded 0] and of
    [Demo.unlogged 0] have the single entry 0, and [run] raises the refusal
    in the one and the [IOError] of [open] in the other, not the error of
    the unbound [status]. *)
Lemma single_entry_run_refused :
  (schedule Demo.steady (self (Demo.guarded 0)) (Demo.solution0 (Np.of_Z 0) 0 [])
     = Val [Np.of_Z 0] /\
   (run Demo.steady (Demo.guarded 0)).1 = Raised RefuseOverwrite) /\
  (schedule Demo.steady (self (Demo.unlogged 0)) (Demo.solution0 (Np.of_Z 0) 0 [])
     = Val [Np.of_Z 0] /\
   (run Demo.steady (Demo.unlogged 0)).1 = Raised (IOError "/run/_output/F.txt")).
Proof. vm_compute. auto. Qed.

Lemma single_entry_schedule_raises_witness :
  exists evs w',
    run Demo.steady (Demo.plain 0) = (Raised (UnboundLocalError "status"), w') /\
    trace w' = trace (Demo.plain 0) ++ evs /\
    forallb (fun e => negb (is_step e)) evs = true.
Proof.
  apply (proj1 (single_entry_schedule_raises Demo.steady (Demo.plain 0) Demo.solver0
                  (Demo.solution0 (Np.of_Z 0) 0 []) eq_refl eq_refl) (Np.of_Z 0));
    [reflexivity | reflexivity | right; reflexivity | reflexivity].
Defined.

(** * Further properties of the controller *)

(** ** What [run] never does *)

Section Confined.
Context {Status Payload SolverSt : Type}.
Variable api : SolverAPI Status Payload SolverSt.
Variable c : Settings Payload.
Variable P : Event Status -> bool.
Implicit Types w : World Status Payload SolverSt.
Local Abbreviation Run := (@M Status Payload SolverSt).

Lemma confined_ret {A} (a : A) : confined c P (ret a : Run A).
Proof. intros w Hc. exists []. simpl. by rewrite app_nil_r. Qed.

Lemma confined_raise {A} e : confined c P (raise e : Run A).
Proof. intros w Hc. exists []. simpl. by rewrite app_nil_r. Qed.

Lemma confined_emit e : P e = true -> confined c P (emit e : Run unit).
Proof. intros He w Hc. exists [e]. simpl. by rewrite He. Qed.

Lemma confined_bind {A B} (m : Run A) (f : A -> Run B) :
  confined c P m -> (forall a, confined c P (f a)) -> confined c P (bind m f).
Proof.
  intros Hm Hf w Hc. unfold bind.
  destruct (Hm w Hc) as (e1 & T1 & P1 & C1 & K1 & F1).
  destruct (m w) as [[a|e] w1]; simpl in *.
  - destruct (Hf a w1 C1) as (e2 & T2 & P2 & C2 & K2 & F2).
    exists (e1 ++ e2). rewrite T2, T1, app_assoc, forallb_app, P1, P2.
    split; [done|]. split; [done|]. split; [done|].
    split; [intros H; by rewrite K2, K1 | intros H; by rewrite F2, F1].
  - by exists e1.
Qed.

(** Reading the controller gives an object with the settings [c]. *)
Lemma confined_self {A} (f : Controller Payload SolverSt -> Run A) :
  (forall ctl, settings ctl = c -> confined c P (f ctl)) ->
  confined c P (bind get_self f).
Proof. intros Hf w Hc. rewrite bind_get_self. by apply Hf. Qed.

Lemma confined_when b (m : Run unit) : confined c P m -> confined c P (when b m).
Proof. destruct b; simpl; [done | intros _; apply confined_ret]. Qed.

Lemma confined_for_each {X S} (l : list X) (body : X -> S -> Run S) acc :
  (forall x s, confined c P (body x s)) -> confined c P (for_each l body acc).
Proof.
  intros Hb. revert acc. induction l as [|x l IH]; intros acc; simpl.
  - apply confined_ret.
  - apply confined_bind; [apply Hb | intros a; apply IH].
Qed.

Lemma confined_the_solution : confined c P (the_solution : Run _).
Proof.
  intros w Hc. exists []. unfold the_solution. rewrite bind_get_self.
  destruct (solution (self w)); simpl; by rewrite app_nil_r.
Qed.

Lemma confined_the_solver : confined c P (the_solver : Run _).
Proof.
  intros w Hc. exists []. unfold the_solver. rewrite bind_get_self.
  destruct (solver (self w)); simpl; by rewrite app_nil_r.
Qed.

Lemma confined_put_solution s : confined c P (put_solution s : Run unit).
Proof. intros w Hc. exists []. simpl. by rewrite app_nil_r. Qed.

Lemma confined_put_solver s : confined c P (put_solver s : Run unit).
Proof. intros w Hc. exists []. simpl. by rewrite app_nil_r. Qed.

Lemma confined_path_exists p : confined c P (path_exists p : Run bool).
Proof. intros w Hc. exists []. simpl. by rewrite app_nil_r. Qed.
End Confined.

Ltac confine :=
  repeat first
    [ apply confined_ret | apply confined_raise | apply confined_the_solution
    | apply confined_the_solver | apply confined_put_solution | apply confined_put_solver
    | apply confined_path_exists | apply confined_when
    | apply confined_self; intros ? ?
    | apply confined_bind; [|intros ?]
    | apply confined_for_each; intros ? ? ].

Section Allowed.
Context {Status Payload SolverSt : Type}.
Variable api : SolverAPI Status Payload SolverSt.
Variable c : Settings Payload.
Implicit Types w : World Status Payload SolverSt.
Local Abbreviation Run := (@M Status Payload SolverSt).
Local Abbreviation ok := (allowed (Status:=Status) c).

Lemma confined_keep : confined c ok (when (keep_copy c) keep_frame : Run unit).
Proof.
  intros w Hc. unfold keep_frame. destruct (keep_copy c) eqn:Hk; simpl.
  - mstep. destruct (solution (self w)); simpl.
    + exists [EvKeepCopy]. simpl. by rewrite Hk.
    + exists []. by rewrite app_nil_r.
  - exists []. by rewrite app_nil_r.
Qed.

Lemma confined_call_compute_p f :
  output_disabled c = false -> compute_p c = Some f ->
  confined c ok (call_compute_p f : Run unit).
Proof.
  intros Ho Hp. unfold call_compute_p. confine. apply confined_emit.
  simpl. by rewrite Ho, Hp.
Qed.

Lemma confined_solution_write call :
  output_disabled c = false -> write_conforms c call = true ->
  confined c ok (solution_write call : Run unit).
Proof. intros Ho Hw. apply confined_emit. simpl. by rewrite Ho, Hw. Qed.

Lemma derived_write_conforms frame path :
  path = outdir c \/ path = outdir_p c ->
  write_conforms c (write_call c frame path (Some (file_prefix_p c)) false true) = true.
Proof.
  intros Hp. unfold write_conforms, write_call. simpl.
  rewrite !andb_true_iff, orb_true_iff, !bool_decide_eq_true. tauto.
Qed.

Lemma main_write_conforms frame aux :
  write_conforms c (write_call c frame (outdir c) (output_file_prefix c) aux false) = true.
Proof.
  unfold write_conforms, write_call. simpl.
  rewrite !andb_true_iff, !bool_decide_eq_true. tauto.
Qed.

(** Lines 345-363 and 387-397 with output enabled. *)
Lemma confined_persist frame path aux :
  output_disabled c = false ->
  path = outdir c \/ path = outdir_p c ->
  confined c ok
    (bind (match compute_p c with
           | Some f =>
               bind (call_compute_p f) (fun _ =>
                 solution_write
                   (write_call c frame path (Some (file_prefix_p c)) false true))
           | None => (ret () : Run unit)
           end)
       (fun _ => solution_write
          (write_call c frame (outdir c) (output_file_prefix c) aux false))).
Proof.
  intros Ho Hp. apply confined_bind.
  - destruct (compute_p c) eqn:Hcp; [|apply confined_ret].
    apply confined_bind; [by apply confined_call_compute_p|].
    intros _. apply confined_solution_write; [done | by apply derived_write_conforms].
  - intros _. apply confined_solution_write; [done | apply main_write_conforms].
Qed.

Lemma confined_write_F mode : confined c ok (write_F api mode).
Proof.
  unfold write_F. apply confined_self. intros ctl Hctl. rewrite Hctl.
  destruct (compute_F c) eqn:HF; [|apply confined_ret].
  confine; [apply confined_emit; simpl; by rewrite HF|].
  intros w Hc. unfold is_proc_0, when, write_line.
  destruct (openable w (F_path c)); simpl.
  - eexists [_]. simpl. split; [reflexivity|]. simpl.
    rewrite HF, bool_decide_true by done.
    split; [done|]. split; [done|]. split; [done|]. done.
  - exists []. by rewrite app_nil_r.
Qed.

Lemma confined_log_info frame : confined c ok (log_info frame : Run unit).
Proof. unfold log_info. confine. by apply confined_emit. Qed.

Lemma confined_initial_output frame : confined c ok (initial_output api frame).
Proof.
  unfold initial_output. apply confined_self. intros ctl Hctl. rewrite Hctl.
  apply confined_bind; [apply confined_keep | intros _].
  apply confined_bind; [|intros _; apply confined_bind;
                           [apply confined_write_F | intros _; apply confined_log_info]].
  destruct (output_disabled c) eqn:Ho; [apply confined_ret|].
  apply confined_bind; [apply confined_path_exists | intros existing].
  destruct (existing && negb (output_clobber c)); [apply confined_raise|].
  apply confined_persist; auto.
Qed.

Lemma confined_evolve tend :
  (if output_style c <? 3 then is_Some tend else tend = None) ->
  confined c ok (evolve api tend).
Proof.
  intros Ht. unfold evolve. confine.
  assert (forall o, ok (EvEvolve tend o) = true) as Hok.
  { intros o. simpl. destruct (output_style c <? 3).
    - by destruct Ht as [x ->].
    - by rewrite Ht. }
  destruct (evolve_to_time api _ _ tend) as [e|[[st s'] sol']]; confine;
    by apply confined_emit.
Qed.

Lemma confined_advance t status : confined c ok (advance api t status).
Proof.
  unfold advance. apply confined_self. intros ctl Hctl. rewrite Hctl.
  destruct (output_style c <? 3) eqn:Hs.
  - apply confined_bind; [|intros st; apply confined_ret].
    apply confined_evolve. rewrite Hs. eauto.
  - apply confined_for_each. intros _ _.
    apply confined_bind; [|intros st; apply confined_ret].
    apply confined_evolve. by rewrite Hs.
Qed.

Lemma confined_save_frame frame : confined c ok (save_frame api frame).
Proof.
  unfold save_frame. apply confined_self. intros ctl Hctl. rewrite Hctl.
  apply confined_bind; [apply confined_keep | intros _].
  apply confined_bind.
  { destruct (output_disabled c) eqn:Ho; [apply confined_ret|].
    apply confined_persist; auto. }
  intros _. apply confined_bind; [apply confined_write_F | intros _].
  apply confined_bind; [apply confined_log_info | intros _].
  confine. by apply confined_emit.
Qed.

Lemma confined_output_step t acc : confined c ok (output_step api t acc).
Proof.
  unfold output_step.
  apply confined_bind; [apply confined_advance | intros status].
  apply confined_bind; [by apply confined_emit | intros _].
  apply confined_bind; [apply confined_save_frame | intros _; apply confined_ret].
Qed.

Lemma confined_finish status : confined c ok (finish status : Run _).
Proof.
  unfold finish. confine; try by apply confined_emit.
  destruct status; confine.
Qed.

Lemma entry_events_allowed (ctl : Controller Payload SolverSt) s sol :
  settings ctl = c -> forallb ok (entry_events ctl s sol) = true.
Proof.
  intros Hc. unfold entry_events.
  destruct (0 <? Z.of_nat (length (gauges sol))), (is_set_up s); simpl;
    rewrite ?Hc, ?bool_decide_true; done.
Qed.

(** Every call of [run] is one its settings allow, whatever the outcome. *)
Lemma run_confined : confined c ok (run api).
Proof.
  intros w Hc.
  destruct (solver (self w)) as [s|] eqn:Hs.
  2: { exists []. unfold run, bind. rewrite prepare_absent by auto. simpl.
       by rewrite app_nil_r. }
  destruct (solution (self w)) as [sol|] eqn:Hsol.
  2: { exists []. unfold run, bind. rewrite prepare_absent by auto. simpl.
       by rewrite app_nil_r. }
  destruct (ready api s sol) eqn:Hr.
  2: { destruct (prepare_not_ready api w s sol Hs Hsol Hr) as (e & He & _).
       exists (entry_events (self w) s sol). unfold run, bind. rewrite He. simpl.
       by rewrite entry_events_allowed. }
  rewrite (run_ready api w s sol) by done.
  destruct (schedule api (self w) sol) as [[|t0 ts]|e] eqn:Hsch.
  - rewrite halt_entered. eexists. simpl. split; [reflexivity|].
    rewrite forallb_app, entry_events_allowed by done. simpl.
    by destruct (bool_decide (sol_t sol = tfinal (self w))).
  - assert (confined c ok
              (bind (initial_output api (FrameCounter.mk (sol_start_frame sol)))
                 (fun _ => bind (for_each ts (output_step api)
                                   (FrameCounter.mk (sol_start_frame sol), None))
                   (fun acc => finish (snd acc))))) as Hcomp.
    { apply confined_bind; [apply confined_initial_output | intros _].
      apply confined_bind; [|intros acc; apply confined_finish].
      apply confined_for_each. intros t acc. apply confined_output_step. }
    destruct (Hcomp (entered api w s sol) Hc) as (evs & T & Pe & C & K & F).
    exists (entry_events (self w) s sol ++ [EvWriteGaugeValues] ++ evs).
    split; [by rewrite T; simpl; rewrite <- !app_assoc|].
    split; [by rewrite forallb_app, entry_events_allowed; simpl|].
    done.
  - exists (entry_events (self w) s sol ++ [EvWriteGaugeValues]). simpl.
    split; [done|]. by rewrite forallb_app, entry_events_allowed.
Qed.
End Allowed.

(** ** What a run that returns has done *)

Section Yields.
Context {Status Payload SolverSt : Type}.
Variable api : SolverAPI Status Payload SolverSt.
Variable c : Settings Payload.
Implicit Types w : World Status Payload SolverSt.
Implicit Types d : Delta.
Local Abbreviation Run := (@M Status Payload SolverSt).

Lemma dplus_zero_l d : dplus dzero d = d.
Proof. by destruct d. Qed.

Lemma dplus_zero_r d : dplus d dzero = d.
Proof.
  destruct d. unfold dplus, dzero. simpl. rewrite !app_nil_r. f_equal; lia.
Qed.

Lemma dplus_assoc d1 d2 d3 : dplus (dplus d1 d2) d3 = dplus d1 (dplus d2 d3).
Proof. unfold dplus. simpl. rewrite <- !app_assoc. f_equal; lia. Qed.

Lemma moved_refl w : moved dzero w w.
Proof. unfold moved. simpl. rewrite !app_nil_r. repeat split; lia. Qed.

Lemma moved_trans d1 d2 w w1 w2 :
  moved d1 w w1 -> moved d2 w1 w2 -> moved (dplus d1 d2) w w2.
Proof.
  intros (T1 & L1 & F1 & M1 & X1) (T2 & L2 & F2 & M2 & X2). unfold moved. simpl.
  rewrite T2, T1, L2, L1, F2, F1, M2, M1, X2, X1, <- !app_assoc.
  repeat split; lia.
Qed.

(** Worlds that differ in the trace by [evs] only. *)
Lemma moved_events w w' (evs : list (Event Status)) :
  trace w' = trace w ++ evs -> frames (self w') = frames (self w) ->
  moved {| d_targets := targets evs; d_logged := logged evs; d_frames := 0;
           d_main := main_paths evs; d_flines := length (flines evs) |} w w'.
Proof.
  intros T F. unfold moved, targets, logged, main_paths, flines. simpl.
  rewrite T, F, !omap_app, length_app. repeat split; lia.
Qed.

Lemma yields_ret {A} (a : A) (R : A -> _ -> _ -> Prop) :
  (forall w, R a w w) -> yields c (ret a : Run A) R.
Proof. intros HR w a' w' Hc H. injection H as <- <-. auto. Qed.

Lemma yields_raise {A} e (R : A -> _ -> _ -> Prop) : yields c (raise e : Run A) R.
Proof. intros w a' w' Hc H. discriminate. Qed.

Lemma yields_bind {A B} (m : Run A) (f : A -> Run B) R1 R2 (R : B -> _ -> _ -> Prop) :
  yields c m R1 -> (forall a, yields c (f a) (R2 a)) ->
  (forall a b w w1 w2, R1 a w w1 -> R2 a b w1 w2 -> R b w w2) ->
  yields c (bind m f) R.
Proof.
  intros Hm Hf HR w b w2 Hc H. unfold bind in H.
  destruct (m w) as [[a|e] w1] eqn:Hmw; [|discriminate].
  destruct (Hm w a w1 Hc Hmw) as [C1 H1].
  destruct (Hf a w1 b w2 C1 H) as [C2 H2]. eauto.
Qed.

Lemma yields_self {A} (f : Controller Payload SolverSt -> Run A) R :
  (forall ctl, settings ctl = c -> yields c (f ctl) R) -> yields c (bind get_self f) R.
Proof. intros Hf w a w' Hc H. rewrite bind_get_self in H. by eapply Hf. Qed.

Lemma yields_weaken {A} (m : Run A) (R R' : A -> _ -> _ -> Prop) :
  (forall a w w', R a w w' -> R' a w w') -> yields c m R -> yields c m R'.
Proof. intros HR Hm w a w' Hc H. destruct (Hm w a w' Hc H). auto. Qed.

(** Sequencing two calls adds up their additions. *)
Lemma yields_seq {A B} (m : Run A) (f : A -> Run B) d1 d2 :
  yields c m (fun _ => moved d1) -> (forall a, yields c (f a) (fun _ => moved d2)) ->
  yields c (bind m f) (fun _ => moved (dplus d1 d2)).
Proof.
  intros Hm Hf. eapply yields_bind; [exact Hm | exact Hf |].
  intros a b w w1 w2. apply moved_trans.
Qed.

Lemma yields_as {A} (m : Run A) d d' :
  d = d' -> yields c m (fun _ => moved d) -> yields c m (fun _ => moved d').
Proof. by intros ->. Qed.

Lemma yields_emit e : yields c (emit e : Run unit) (fun _ => moved (d_event e)).
Proof.
  intros w a w' Hc H. injection H as _ <-. split; [done|].
  by apply (moved_events _ _ [e]).
Qed.

Lemma yields_quiet_emit e :
  d_event e = dzero -> yields c (emit e : Run unit) (fun _ => moved dzero).
Proof. intros <-. apply yields_emit. Qed.

Lemma yields_the_solution :
  yields c (the_solution : Run _) (fun _ => moved dzero).
Proof.
  intros w a w' Hc H. unfold the_solution in H. rewrite bind_get_self in H.
  destruct (solution (self w)); [|discriminate]. injection H as _ <-.
  split; [done | apply moved_refl].
Qed.

Lemma yields_the_solver :
  yields c (the_solver : Run _) (fun _ => moved dzero).
Proof.
  intros w a w' Hc H. unfold the_solver in H. rewrite bind_get_self in H.
  destruct (solver (self w)); [|discriminate]. injection H as _ <-.
  split; [done | apply moved_refl].
Qed.

Lemma yields_put_solution s : yields c (put_solution s : Run unit) (fun _ => moved dzero).
Proof.
  intros w a w' Hc H. injection H as _ <-. split; [done|].
  unfold moved. simpl. rewrite !app_nil_r. repeat split; lia.
Qed.

Lemma yields_put_solver s : yields c (put_solver s : Run unit) (fun _ => moved dzero).
Proof.
  intros w a w' Hc H. injection H as _ <-. split; [done|].
  unfold moved. simpl. rewrite !app_nil_r. repeat split; lia.
Qed.

(** A sequence of calls none of which adds anything. *)
Lemma yields_seq0 {A B} (m : Run A) (f : A -> Run B) d :
  yields c m (fun _ => moved dzero) -> (forall a, yields c (f a) (fun _ => moved d)) ->
  yields c (bind m f) (fun _ => moved d).
Proof.
  intros Hm Hf. apply (yields_as _ (dplus dzero d)); [apply dplus_zero_l|].
  by apply yields_seq.
Qed.

Lemma yields_keep :
  yields c (when (keep_copy c) keep_frame : Run unit)
    (fun _ => moved (d_retain (if keep_copy c then 1 else 0))).
Proof.
  intros w a w' Hc H. destruct (keep_copy c); simpl in H.
  - unfold keep_frame in H. mstep. revert H. mstep.
    destruct (solution (self w)); [|discriminate]. simpl. intros H.
    injection H as _ <-. split; [done|].
    unfold moved, targets, logged, main_paths, flines. simpl.
    rewrite !omap_app, !length_app. simpl. rewrite !app_nil_r. repeat split; lia.
  - injection H as _ <-. split; [done | apply moved_refl].
Qed.

Lemma yields_call_compute_p f :
  yields c (call_compute_p f : Run unit) (fun _ => moved dzero).
Proof.
  unfold call_compute_p. apply yields_seq0; [apply yields_the_solution | intros sol].
  apply yields_seq0; [apply yields_put_solution | intros _].
  by apply yields_quiet_emit.
Qed.

(** Lines 345-363 and 387-397 with output enabled: one main snapshot. *)
Lemma yields_persist frame path aux :
  yields c
    (bind (match compute_p c with
           | Some f =>
               bind (call_compute_p f) (fun _ =>
                 solution_write
                   (write_call c frame path (Some (file_prefix_p c)) false true))
           | None => (ret () : Run unit)
           end)
       (fun _ => solution_write
          (write_call c frame (outdir c) (output_file_prefix c) aux false)))
    (fun _ => moved
       {| d_targets := []; d_logged := []; d_frames := 0;
          d_main := [(FrameCounter.counter frame, outdir c)]; d_flines := 0 |}).
Proof.
  apply yields_seq0; [|intros _; apply yields_emit].
  destruct (compute_p c); [|apply yields_ret, moved_refl].
  apply yields_seq0; [apply yields_call_compute_p | intros _].
  by apply yields_quiet_emit.
Qed.

Lemma yields_write_F mode :
  yields c (write_F api mode)
    (fun _ => moved
       {| d_targets := []; d_logged := []; d_frames := 0; d_main := [];
          d_flines := match compute_F c with Some _ => 1 | None => 0 end |}).
Proof.
  unfold write_F. apply yields_self. intros ctl Hctl. rewrite Hctl.
  destruct (compute_F c); [|apply yields_ret, moved_refl].
  apply yields_seq0; [apply yields_the_solution | intros sol].
  apply yields_seq0; [apply yields_put_solution | intros _].
  apply yields_seq0; [by apply yields_quiet_emit | intros _].
  apply yields_seq0; [apply yields_the_solution | intros sol'].
  intros w a w' Hc H. unfold is_proc_0, when, write_line in H.
  destruct (openable w (F_path c)); [|discriminate]. injection H as _ <-.
  split; [done|]. by eapply (moved_events _ _ [EvWriteF _ _ _]).
Qed.

Lemma yields_log_info frame :
  yields c (log_info frame : Run unit)
    (fun _ => moved
       {| d_targets := []; d_logged := [FrameCounter.counter frame]; d_frames := 0;
          d_main := []; d_flines := 0 |}).
Proof.
  unfold log_info. apply yields_seq0; [apply yields_the_solution | intros sol].
  apply yields_emit.
Qed.

Lemma yields_flush_all (f : gfile -> Event Status) (l : list gfile) :
  (forall g, d_event (f g) = dzero) ->
  yields c (for_each l (fun g _ => emit (f g)) () : Run unit) (fun _ => moved dzero).
Proof.
  intros Hf. induction l as [|g l IH]; simpl.
  - apply yields_ret, moved_refl.
  - apply yields_seq0; [by apply yields_quiet_emit | intros []; apply IH].
Qed.

Lemma d_point_sum k :
  dplus (d_retain (if keep_copy c then 1 else 0))
    (dplus (if output_disabled c then dzero
            else {| d_targets := []; d_logged := []; d_frames := 0;
                    d_main := [(k, outdir c)]; d_flines := 0 |})
       (dplus {| d_targets := []; d_logged := []; d_frames := 0; d_main := [];
                 d_flines := match compute_F c with Some _ => 1 | None => 0 end |}
          {| d_targets := []; d_logged := [k]; d_frames := 0;
             d_main := []; d_flines := 0 |}))
  = d_point c k.
Proof.
  unfold dplus, d_point, d_retain, dzero.
  destruct (keep_copy c), (output_disabled c), (compute_F c); reflexivity.
Qed.

(** Lines 381-413. *)
Lemma yields_save_frame frame :
  yields c (save_frame api frame)
    (fun _ => moved (d_point c (FrameCounter.counter frame))).
Proof.
  unfold save_frame. apply yields_self. intros ctl Hctl. rewrite Hctl.
  eapply yields_as; [apply d_point_sum|].
  apply yields_seq; [apply yields_keep | intros _].
  apply yields_seq.
  { destruct (output_disabled c); [apply yields_ret, moved_refl | apply yields_persist]. }
  intros _. apply yields_seq; [apply yields_write_F | intros _].
  eapply yields_as; [apply dplus_zero_r|].
  apply yields_seq; [apply yields_log_info | intros _].
  apply yields_seq0; [apply yields_the_solution | intros sol].
  by apply yields_flush_all.
Qed.

(** Lines 335-371. *)
Lemma yields_initial_output frame :
  yields c (initial_output api frame)
    (fun _ => moved (d_point c (FrameCounter.counter frame))).
Proof.
  unfold initial_output. apply yields_self. intros ctl Hctl. rewrite Hctl.
  eapply yields_as; [apply d_point_sum|].
  apply yields_seq; [apply yields_keep | intros _].
  apply yields_seq.
  { destruct (output_disabled c); [apply yields_ret, moved_refl|].
    apply yields_seq0.
    { intros w a w' Hc H. injection H as _ <-. split; [done | apply moved_refl]. }
    intros existing. destruct (existing && negb (output_clobber c)); [apply yields_raise|].
    apply yields_persist. }
  intros _. apply yields_seq; [apply yields_write_F | intros _].
  apply yields_log_info.
Qed.

Lemma yields_evolve tend :
  yields c (evolve api tend)
    (fun _ => moved
       {| d_targets := [tend]; d_logged := []; d_frames := 0; d_main := [];
          d_flines := 0 |}).
Proof.
  unfold evolve. apply yields_seq0; [apply yields_the_solver | intros s].
  apply yields_seq0; [apply yields_the_solution | intros sol].
  destruct (evolve_to_time api s sol tend) as [e|[[st s'] sol']].
  - intros w a w' Hc H. discriminate H.
  - apply yields_seq0; [apply yields_put_solver | intros _].
    apply yields_seq0; [apply yields_put_solution | intros _].
    eapply yields_as; [apply dplus_zero_r|].
    apply yields_seq; [apply yields_emit | intros _].
    apply yields_ret, moved_refl.
Qed.

Lemma yields_evolve_steps (l : list nat) status :
  yields c
    (for_each l (fun _ _ => bind (evolve api None) (fun st => ret (Some st))) status)
    (fun _ => moved
       {| d_targets := replicate (length l) None; d_logged := []; d_frames := 0;
          d_main := []; d_flines := 0 |}).
Proof.
  revert status. induction l as [|n l IH]; intros status; simpl.
  - apply yields_ret, moved_refl.
  - eapply yields_as; [|apply yields_seq; [|intros a; apply IH]].
    2: { eapply yields_as; [apply dplus_zero_r|].
         apply yields_seq; [apply yields_evolve | intros st].
         apply yields_ret, moved_refl. }
    reflexivity.
Qed.

(** Lines 374-379. *)
Lemma yields_advance t status :
  yields c (advance api t status) (fun _ => moved (d_advance c t)).
Proof.
  unfold advance. apply yields_self. intros ctl Hctl. rewrite Hctl.
  unfold d_advance. destruct (output_style c <? 3).
  - eapply yields_as; [apply dplus_zero_r|].
    apply yields_seq; [apply yields_evolve | intros st].
    apply yields_ret, moved_refl.
  - eapply yields_as; [|apply yields_evolve_steps].
    by rewrite length_seq.
Qed.

(** Lines 373-413: one pass, from frame counter [k] to [k + 1]. *)
Lemma yields_output_step t acc :
  yields c (output_step api t acc)
    (fun acc' w w' =>
       moved (dplus (d_advance c t) (d_point c (FrameCounter.counter (fst acc) + 1))) w w'
       /\ FrameCounter.counter (fst acc') = FrameCounter.counter (fst acc) + 1).
Proof.
  intros w acc' w' Hc H. unfold output_step, bind in H.
  destruct (advance api t (snd acc) w) as [[status|e] w1] eqn:H1; [|discriminate].
  destruct (yields_advance t _ w status w1 Hc H1) as [C1 M1].
  destruct (emit EvIncrement w1) as [[u|e] w2] eqn:H2; [|discriminate].
  destruct (yields_quiet_emit EvIncrement eq_refl w1 u w2 C1 H2) as [C2 M2].
  destruct (save_frame api (FrameCounter.increment (fst acc)) w2) as [[u'|e] w3] eqn:H3;
    [|discriminate].
  destruct (yields_save_frame _ w2 u' w3 C2 H3) as [C3 M3].
  injection H as <- <-. split; [done|]. split; [|done].
  eapply moved_trans; [exact M1|].
  rewrite <- (dplus_zero_l (d_point _ _)). eapply moved_trans; [exact M2 | exact M3].
Qed.

(** Lines 373-413: the loop. *)
Lemma yields_loop ts acc :
  yields c (for_each ts (output_step api) acc)
    (fun acc' w w' =>
       moved (d_loop c (FrameCounter.counter (fst acc)) ts) w w'
       /\ FrameCounter.counter (fst acc')
          = FrameCounter.counter (fst acc) + Z.of_nat (length ts)).
Proof.
  revert acc. induction ts as [|t ts IH]; intros acc; simpl.
  - apply yields_ret. intros w. split; [apply moved_refl | lia].
  - eapply yields_bind; [apply yields_output_step | intros acc1; apply IH |].
    intros acc1 acc2 w w1 w2 [H1 E1] [H2 E2]. rewrite E1 in H2. split.
    + by eapply moved_trans.
    + lia.
Qed.

Lemma omap_map_nil {X B} (h : Event Status -> option B) (f : X -> Event Status)
    (l : list X) :
  (forall x, omap h [f x] = []) -> omap h (map f l) = [].
Proof.
  intros Hh. induction l as [|x l IH]; [done|].
  change (map f (x :: l)) with ([f x] ++ map f l). by rewrite omap_app, Hh, IH.
Qed.

Lemma moved_map_quiet w w' (f : gfile -> Event Status) (l : list gfile) :
  (forall g, d_event (f g) = dzero) ->
  trace w' = trace w ++ map f l -> frames (self w') = frames (self w) ->
  moved dzero w w'.
Proof.
  intros Hf T F.
  assert ({| d_targets := targets (map f l); d_logged := logged (map f l); d_frames := 0;
             d_main := main_paths (map f l); d_flines := length (flines (map f l)) |}
          = dzero) as <-; [|by apply moved_events].
  unfold targets, logged, main_paths, flines.
  rewrite !omap_map_nil; [done | | | |]; intros g; specialize (Hf g).
  - apply nil_length_inv. exact (f_equal d_flines Hf).
  - exact (f_equal d_main Hf).
  - exact (f_equal d_logged Hf).
  - exact (f_equal d_targets Hf).
Qed.

(** Lines 415-420 when a status is returned. *)
Lemma yields_finish status :
  yields c (finish status : Run _)
    (fun r w w' =>
       moved dzero w w' /\ r = status /\
       exists sol', solution (self w') = Some sol' /\
                    sol_start_frame sol' = Z.of_nat (length (frames (self w')))).
Proof.
  intros w r w' Hc H. unfold finish in H. revert H.
  repeat progress
    (unfold bind, ret, raise, get_self, put_self, the_solution, put_solution; simpl).
  destruct (solution (self w)) as [sol|] eqn:Hsol; [|discriminate]. simpl.
  rewrite for_each_emit. simpl. rewrite Hsol.
  destruct status as [st|]; [|discriminate]. intros H. injection H as <- <-.
  simpl. split; [done|]. split; [|split; [done | eauto]].
  by apply (moved_map_quiet _ _ EvClose (gauge_files sol)).
Qed.

(** *** The additions of the loop in closed form *)

Lemma map_seq_next {B} (g : Z -> B) (k : Z) (n : nat) :
  map (fun i => g (k + 1 + Z.of_nat i)) (seq 0 n) = map (fun i => g (k + Z.of_nat i)) (seq 1 n).
Proof.
  rewrite <- seq_shift, map_map. apply map_ext. intros i. f_equal. lia.
Qed.

Lemma d_loop_logged k ts :
  d_logged (d_loop c k ts) = map (fun i => k + Z.of_nat i) (seq 1 (length ts)).
Proof.
  revert k. induction ts as [|t ts IH]; intros k; [done|].
  simpl. rewrite IH. f_equal.
  rewrite <- (seq_shift _ 1), map_map. apply map_ext. intros i. lia.
Qed.

Lemma d_loop_main k ts :
  d_main (d_loop c k ts) =
  if output_disabled c then []
  else map (fun i => (k + Z.of_nat i, outdir c)) (seq 1 (length ts)).
Proof.
  revert k. induction ts as [|t ts IH]; intros k; simpl.
  - by destruct (output_disabled c).
  - rewrite IH. destruct (output_disabled c); [done|]. simpl. f_equal.
    rewrite <- (seq_shift _ 1), map_map. apply map_ext. intros i. f_equal. lia.
Qed.

Lemma d_loop_frames k ts :
  d_frames (d_loop c k ts) = if keep_copy c then length ts else 0%nat.
Proof.
  revert k. induction ts as [|t ts IH]; intros k; simpl.
  - by destruct (keep_copy c).
  - rewrite IH. by destruct (keep_copy c).
Qed.

Lemma d_loop_flines k ts :
  d_flines (d_loop c k ts) = match compute_F c with Some _ => length ts | None => 0%nat end.
Proof.
  revert k. induction ts as [|t ts IH]; intros k; simpl.
  - by destruct (compute_F c).
  - rewrite IH. by destruct (compute_F c).
Qed.

Lemma d_loop_targets k ts :
  d_targets (d_loop c k ts) =
  if output_style c <? 3 then map Some ts
  else replicate (length ts * Z.to_nat (nstepout c)) None.
Proof.
  revert k. induction ts as [|t ts IH]; intros k; simpl.
  - by destruct (output_style c <? 3).
  - rewrite IH, app_nil_r. destruct (output_style c <? 3); [done|].
    by rewrite replicate_add.
Qed.

(** *** [run] when it returns a status *)

Lemma moved_entered w s sol : moved dzero w (entered api w s sol).
Proof.
  unfold moved, entered, set_up, entry_events, targets, logged, main_paths, flines. simpl.
  destruct (0 <? Z.of_nat (length (gauges sol))), (is_set_up s); simpl;
    rewrite !omap_app, ?length_app; simpl; rewrite !app_nil_r; repeat split; lia.
Qed.

(** A run that returns a status passed the entry checks, had a schedule of
    at least one time, and added to the observations what the initial
    output point and the loop add; the restart frame of the solution is the
    number of retained frames. *)
Lemma run_shape w st w' :
  settings (self w) = c ->
  run api w = (Val (Some st), w') ->
  exists s sol t0 ts,
    solver (self w) = Some s /\ solution (self w) = Some sol /\
    ready api s sol = true /\
    schedule api (self w) sol = Val (t0 :: ts) /\
    moved (dplus (d_point c (sol_start_frame sol)) (d_loop c (sol_start_frame sol) ts))
      w w' /\
    exists sol', solution (self w') = Some sol' /\
                 sol_start_frame sol' = Z.of_nat (length (frames (self w'))).
Proof.
  intros Hc Hrun.
  destruct (solver (self w)) as [s|] eqn:Hs.
  2: { unfold run, bind in Hrun. by rewrite prepare_absent in Hrun by auto. }
  destruct (solution (self w)) as [sol|] eqn:Hsol.
  2: { unfold run, bind in Hrun. by rewrite prepare_absent in Hrun by auto. }
  destruct (ready api s sol) eqn:Hr.
  2: { destruct (prepare_not_ready api w s sol Hs Hsol Hr) as (e & He & _).
       unfold run, bind in Hrun. by rewrite He in Hrun. }
  rewrite (run_ready api w s sol) in Hrun by done.
  destruct (schedule api (self w) sol) as [[|t0 ts]|e] eqn:Hsch.
  - by rewrite halt_entered in Hrun.
  - exists s, sol, t0, ts. do 4 (split; [done|]).
    unfold bind in Hrun.
    destruct (initial_output api _ (entered api w s sol)) as [[u|e] w1] eqn:H1;
      [|discriminate].
    destruct (yields_initial_output _ (entered api w s sol) u w1 Hc H1) as [C1 M1].
    destruct (for_each ts (output_step api) _ w1) as [[acc|e] w2] eqn:H2; [|discriminate].
    destruct (yields_loop ts _ w1 acc w2 C1 H2) as [C2 [M2 _]].
    destruct (yields_finish _ w2 _ w' C2 Hrun) as [C3 (M3 & _ & Hfin)].
    split; [|done]. simpl in M1, M2.
    rewrite <- (dplus_zero_l (dplus _ _)), <- (dplus_zero_r (dplus (d_point _ _) _)).
    eapply moved_trans; [apply moved_entered|].
    eapply moved_trans; [|exact M3].
    eapply moved_trans; [exact M1 | exact M2].
  - discriminate.
Qed.
End Yields.

(** ** Properties of whole runs *)

Section Runs.
Context {Status Payload SolverSt : Type}.
Variable api : SolverAPI Status Payload SolverSt.
Implicit Types w : World Status Payload SolverSt.

(** The calls of [run], whatever its outcome, with what [run_confined]
    says about them. *)
Lemma run_calls w :
  exists evs,
    trace (run api w).2 = trace w ++ evs /\
    forallb (allowed (settings (self w))) evs = true /\
    (keep_copy (self w) = false -> frames (self (run api w).2) = frames (self w)) /\
    (compute_F (self w) = None -> fs_text (run api w).2 = fs_text w).
Proof.
  destruct (run_confined api (settings (self w)) w eq_refl) as (evs & T & P & _ & K & F).
  by exists evs.
Qed.

(** What a run that returns a status added to the trace and the frames. *)
Lemma run_additions w st w' :
  run api w = (Val (Some st), w') ->
  exists s sol t0 ts evs,
    solver (self w) = Some s /\ solution (self w) = Some sol /\
    ready api s sol = true /\
    schedule api (self w) sol = Val (t0 :: ts) /\
    trace w' = trace w ++ evs /\
    let c := settings (self w) in
    let k := sol_start_frame sol in
    targets evs = d_targets (d_loop c k ts) /\
    logged evs = k :: d_logged (d_loop c k ts) /\
    length (frames (self w')) = (length (frames (self w)) + d_frames (d_point c k)
                                 + d_frames (d_loop c k ts))%nat /\
    main_paths evs = d_main (d_point c k) ++ d_main (d_loop c k ts) /\
    length (flines evs) = (d_flines (d_point c k) + d_flines (d_loop c k ts))%nat /\
    exists sol', solution (self w') = Some sol' /\
                 sol_start_frame sol' = Z.of_nat (length (frames (self w'))).
Proof.
  intros Hrun.
  destruct (run_shape api (settings (self w)) w st w' eq_refl Hrun)
    as (s & sol & t0 & ts & Hs & Hsol & Hr & Hsch & (T & L & F & M & X) & Hfin).
  destruct (run_calls w) as (evs & Tr & _). rewrite Hrun in Tr. simpl in Tr.
  exists s, sol, t0, ts, evs. do 5 (split; [done|]). cbv zeta.
  unfold targets, logged, main_paths, flines in *.
  rewrite Tr, !omap_app in *. rewrite length_app in X. simpl in *.
  apply app_inv_head in T, L, M.
  split; [done|]. split; [done|]. split; [lia|]. split; [done|]. split; [lia | done].
Qed.

(** A run that returns a status was stopped neither at line 342 nor at
    line 432. *)
Lemma returned_no_conflict w st w' s sol :
  run api w = (Val (Some st), w') ->
  solver (self w) = Some s -> solution (self w) = Some sol ->
  (output_disabled (self w) = true \/ conflict w sol = false) /\
  log_ready w sol = true.
Proof.
  intros Hrun Hs Hsol.
  destruct (run_cases api w s sol Hs Hsol)
    as [(pre & r & w1 & E & _ & _ & _ & Hr) | (t0 & ts & _ & _ & Hok & Hlog)]; [|done].
  rewrite Hrun in E. injection E as <- <-. by destruct (Hr st).
Qed.

(** X1.  A run that returns a status logged one output point per entry of
    the schedule, numbered consecutively from the start frame of the
    solution. *)
Theorem run_numbers_frames w st w' :
  run api w = (Val (Some st), w') ->
  exists sol ts evs,
    solution (self w) = Some sol /\ schedule api (self w) sol = Val ts /\
    trace w' = trace w ++ evs /\
    logged evs = map (fun i => sol_start_frame sol + Z.of_nat i) (seq 0 (length ts)).
Proof.
  intros Hrun.
  destruct (run_additions w st w' Hrun)
    as (s & sol & t0 & ts & evs & Hs & Hsol & Hr & Hsch & T & H).
  cbv zeta in H. destruct H as (_ & L & _).
  exists sol, (t0 :: ts), evs. do 3 (split; [done|]).
  rewrite L, d_loop_logged. simpl. f_equal. lia.
Qed.

(** X2.  A run that returns a status with output enabled wrote exactly one
    main snapshot per entry of the schedule, into [outdir], with the frame
    numbers of X1; with output disabled it wrote none. *)
Theorem run_writes_main_snapshots w st w' :
  run api w = (Val (Some st), w') ->
  exists sol ts evs,
    solution (self w) = Some sol /\ schedule api (self w) sol = Val ts /\
    trace w' = trace w ++ evs /\
    main_paths evs =
      if output_disabled (self w) then []
      else map (fun i => (sol_start_frame sol + Z.of_nat i, outdir (self w)))
             (seq 0 (length ts)).
Proof.
  intros Hrun.
  destruct (run_additions w st w' Hrun)
    as (s & sol & t0 & ts & evs & Hs & Hsol & Hr & Hsch & T & H).
  cbv zeta in H. destruct H as (_ & _ & _ & M & _).
  exists sol, (t0 :: ts), evs. do 3 (split; [done|]).
  rewrite M, d_loop_main. simpl. destruct (output_disabled (self w)); [done|].
  simpl. do 2 f_equal. lia.
Qed.

(** X3.  A run that returns a status appended one retained frame per entry
    of the schedule when [keep_copy] is set and none otherwise, and left the
    start frame of the solution at the number of frames then retained. *)
Theorem run_retains_frames w st w' :
  run api w = (Val (Some st), w') ->
  exists sol ts sol',
    solution (self w) = Some sol /\ schedule api (self w) sol = Val ts /\
    length (frames (self w')) =
      (length (frames (self w)) + if keep_copy (self w) then length ts else 0)%nat /\
    solution (self w') = Some sol' /\
    sol_start_frame sol' = Z.of_nat (length (frames (self w'))).
Proof.
  intros Hrun.
  destruct (run_additions w st w' Hrun)
    as (s & sol & t0 & ts & evs & Hs & Hsol & Hr & Hsch & T & H).
  cbv zeta in H. destruct H as (_ & _ & F & _ & _ & sol' & Hsol' & Hk).
  exists sol, (t0 :: ts), sol'. do 2 (split; [done|]). split; [|done].
  rewrite F, d_loop_frames. simpl. destruct (keep_copy (self w)); lia.
Qed.

(** X4.  In a run of style 1 or 2 that returns a status, the evolution
    calls were made with the entries of the schedule after the first as
    targets, one call each, in order: the first entry is never a target. *)
Theorem run_targets_schedule_tail w st w' :
  run api w = (Val (Some st), w') ->
  output_style (self w) < 3 ->
  exists sol ts evs,
    solution (self w) = Some sol /\ schedule api (self w) sol = Val ts /\
    trace w' = trace w ++ evs /\
    targets evs = map Some (tail ts).
Proof.
  intros Hrun Hst.
  destruct (run_additions w st w' Hrun)
    as (s & sol & t0 & ts & evs & Hs & Hsol & Hr & Hsch & T & H).
  cbv zeta in H. destruct H as (Tg & _).
  exists sol, (t0 :: ts), evs. do 3 (split; [done|]).
  rewrite Tg, d_loop_targets. by destruct (Z.ltb_spec (output_style (self w)) 3); [|lia].
Qed.

(** X5.  In a run of style 3 that returns a status, the schedule had
    [num_output_times + 1 - start_frame] entries and the solver was called
    [nstepout] times per entry after the first, never with a target. *)
Theorem run_style_C_steps w st w' :
  run api w = (Val (Some st), w') ->
  output_style (self w) = 3 ->
  exists sol evs,
    solution (self w) = Some sol /\
    trace w' = trace w ++ evs /\
    1 <= num_output_times (self w) + 1 - sol_start_frame sol /\
    targets evs =
      replicate (Z.to_nat (num_output_times (self w) - sol_start_frame sol)
                 * Z.to_nat (nstepout (self w))) None.
Proof.
  intros Hrun Hst.
  destruct (run_additions w st w' Hrun)
    as (s & sol & t0 & ts & evs & Hs & Hsol & Hr & Hsch & T & H).
  cbv zeta in H. destruct H as (Tg & _).
  exists sol, evs. do 2 (split; [done|]).
  unfold schedule, output_times_of, Np.ones in Hsch. simpl in Hsch.
  rewrite Hst in Hsch. simpl in Hsch.
  destruct (Z.ltb_spec (num_output_times (self w) + 1 - sol_start_frame sol) 0);
    [discriminate|].
  injection Hsch as Hsch. apply (f_equal length) in Hsch.
  rewrite length_replicate in Hsch. simpl in Hsch.
  split; [lia|].
  rewrite Tg, d_loop_targets, Hst. simpl. f_equal. f_equal. lia.
Qed.

(** X6.  A run that returns a status with [compute_F] set leaves a
    functional log of exactly one line per entry of the schedule. *)
Theorem run_functional_log_length w st w' f :
  run api w = (Val (Some st), w') ->
  compute_F (self w) = Some f ->
  exists sol ts lines,
    solution (self w) = Some sol /\ schedule api (self w) sol = Val ts /\
    fs_text w' !! F_path (self w) = Some lines /\
    length lines = length ts.
Proof.
  intros Hrun HF.
  destruct (run_additions w st w' Hrun)
    as (s & sol & t0 & ts & evs & Hs & Hsol & Hr & Hsch & T & H).
  cbv zeta in H. destruct H as (_ & _ & _ & _ & X & _).
  destruct (returned_no_conflict w st w' s sol Hrun Hs Hsol) as [Hok Hlog].
  destruct (run_outcome api (fun _ => True) (settings (self w))
              (fun _ _ _ => I) (fun _ _ _ _ _ _ _ _ => I) w s sol t0 ts)
    as (mid & sol1 & evl & fin & r & w1 & E & T1 & P1 & L & Fl & HFl & Hval & R); try done.
  rewrite Hrun in E. injection E as <- <-.
  rewrite HF in HFl. destruct HFl as (line & Hl & Hx).
  exists sol, (t0 :: ts), ([line] ++ flines evl). do 3 (split; [done|]).
  rewrite T1 in T. apply app_inv_head in T. subst evs.
  destruct R as (_ & _ & sol2 & _ & ->).
  assert (flines (Status:=Status) (entry_events (self w) s sol) = []) as Hpre.
  { apply (forallb_omap_nil early_event); [by intros [] |].
    by apply entry_events_quiet. }
  rewrite !flines_app, flines_map_close, Hl, Hpre, !app_nil_r in X. simpl in X.
  rewrite d_loop_flines, HF in X. rewrite length_app in *. simpl in *. lia.
Qed.

(** X7.  With output disabled (no handler or no format), [run] makes no
    [solution.write] call and never calls [compute_p], whatever its
    outcome. *)
Theorem disabled_output_never_writes w :
  output_disabled (self w) = true ->
  exists evs,
    trace (run api w).2 = trace w ++ evs /\
    writes evs = [] /\ ~ In EvComputeP evs.
Proof.
  intros Ho. destruct (run_calls w) as (evs & T & P & _). exists evs.
  split; [done|]. split.
  - apply (forallb_omap_nil (allowed (settings (self w)))); [|done].
    intros []; simpl; try done. by rewrite Ho.
  - intros Hin. rewrite forallb_forall in P. specialize (P _ Hin). simpl in P.
    by rewrite Ho in P.
Qed.

(** X8.  Without [compute_F], [run] never computes a functional and never
    writes to the functional log, whatever its outcome: no line is written
    and the text files of the controller's own writing, of which the
    functional log is the only one, are as before.  (The files of the
    persistence backend and of the gauge streams are not among them.) *)
Theorem no_functional_no_log w :
  compute_F (self w) = None ->
  fs_text (run api w).2 = fs_text w /\
  exists evs,
    trace (run api w).2 = trace w ++ evs /\
    flines evs = [] /\ ~ In EvComputeF evs.
Proof.
  intros HF. destruct (run_calls w) as (evs & T & P & _ & F).
  split; [by apply F|]. exists evs. split; [done|]. split.
  - apply (forallb_omap_nil (allowed (settings (self w)))); [|done].
    intros []; simpl; try done. by rewrite HF.
  - intros Hin. rewrite forallb_forall in P. specialize (P _ Hin). simpl in P.
    by rewrite HF in P.
Qed.

(** X9.  Without [keep_copy], [run] leaves the retained frames as they
    were, whatever its outcome. *)
Theorem no_keep_copy_no_frames w :
  keep_copy (self w) = false ->
  frames (self (run api w).2) = frames (self w) /\
  exists evs, trace (run api w).2 = trace w ++ evs /\ ~ In EvKeepCopy evs.
Proof.
  intros Hk. destruct (run_calls w) as (evs & T & P & K & _).
  split; [by apply K|]. exists evs. split; [done|].
  intros Hin. rewrite forallb_forall in P. specialize (P _ Hin). simpl in P.
  by rewrite Hk in P.
Qed.

(** X10.  Every [solution.write] call of [run] passes the handler, the
    format, the clobber flag and the options of the controller; a derived
    snapshot ([write_p]) goes to [outdir] or [outdir_p] under the prefix
    [file_prefix_p] without auxiliary arrays, a main snapshot goes to
    [outdir] under [output_file_prefix]. *)
Theorem write_calls_conform w :
  exists evs,
    trace (run api w).2 = trace w ++ evs /\
    forall call, In call (writes evs) -> write_conforms (self w) call = true.
Proof.
  destruct (run_calls w) as (evs & T & P & _). exists evs. split; [done|].
  clear T. induction evs as [|e evs IH]; [done|].
  simpl in P. apply andb_true_iff in P as [Pe P].
  intros call Hin. unfold writes in Hin. simpl in Hin.
  destruct e as [d l| | |msg| | |call'| |p m ln|k t|tend' o| |g|g]; try (by apply IH).
  simpl in Hin. destruct Hin as [<-|Hin]; [|by apply IH].
  simpl in Pe. by apply andb_true_iff in Pe as [_ Pe].
Qed.

(** X11.  Whatever the outcome, in style 1 or 2 every evolution call of
    [run] has a target time, and in any other style none has. *)
Theorem evolve_calls_by_style w :
  exists evs,
    trace (run api w).2 = trace w ++ evs /\
    forall tend, In tend (targets evs) ->
      if output_style (self w) <? 3 then is_Some tend else tend = None.
Proof.
  destruct (run_calls w) as (evs & T & P & _). exists evs. split; [done|].
  clear T. induction evs as [|e evs IH]; [done|].
  simpl in P. apply andb_true_iff in P as [Pe P].
  intros tend Hin. unfold targets in Hin. simpl in Hin.
  destruct e as [d l| | |msg| | |call| |p m ln|k t|tend' o| |g|g]; try (by apply IH).
  simpl in Hin. destruct Hin as [<-|Hin]; [|by apply IH].
  simpl in Pe. by destruct (output_style (self w) <? 3), tend'.
Qed.

(** X12.  An error in computing the schedule is raised after the entry
    phase and before anything is output: for an output style other than 1,
    2 and 3 the invalid-style error, and for style 3 with a start frame
    beyond [num_output_times + 1] the [ValueError] of [numpy.ones]. *)
Theorem schedule_errors w s sol :
  solver (self w) = Some s -> solution (self w) = Some sol ->
  ready api s sol = true ->
  (output_style (self w) <> 1 -> output_style (self w) <> 2 ->
   output_style (self w) <> 3 ->
   (run api w).1 = Raised (InvalidOutputStyle (output_style (self w)))) /\
  (output_style (self w) = 3 ->
   num_output_times (self w) + 1 < sol_start_frame sol ->
   (run api w).1 = Raised ValueError) /\
  (forall e, schedule api (self w) sol = Raised e ->
   (run api w).1 = Raised e /\
   trace (run api w).2
     = trace w ++ entry_events (self w) s sol ++ [EvWriteGaugeValues] /\
   fs_text (run api w).2 = fs_text w /\
   frames (self (run api w).2) = frames (self w)).
Proof.
  intros Hs Hsol Hr.
  assert (forall e, schedule api (self w) sol = Raised e ->
            run api w = (Raised e, entered api w s sol)) as Hrun.
  { intros e He. by rewrite (run_ready api w s sol), He. }
  split; [|split].
  - intros H1 H2 H3. rewrite (Hrun (InvalidOutputStyle (output_style (self w)))); [done|].
    unfold schedule, output_times_of. simpl.
    by repeat (destruct (decide _); [done|]).
  - intros H3 Hk. rewrite (Hrun ValueError); [done|].
    unfold schedule, output_times_of, Np.ones. simpl. rewrite H3. simpl.
    by destruct (Z.ltb_spec (num_output_times (self w) + 1 - sol_start_frame sol) 0);
      [|lia].
  - intros e He. by rewrite (Hrun e He).
Qed.

End Runs.

(** ** Properties of the other methods *)

Section Methods.
Context {Status Payload SolverSt : Type}.
Variable api : SolverAPI Status Payload SolverSt.
Implicit Types w : World Status Payload SolverSt.

(** X13.  [check_validity] only checks: it leaves the world as it is, and
    it returns normally exactly when there are a solver and a solution that
    pass all four checks. *)
Theorem check_validity_checks_only w :
  (check_validity api w).2 = w /\
  ((check_validity api w).1 = Val () <->
   exists s sol, solver (self w) = Some s /\ solution (self w) = Some sol /\
                 valid_pair api s sol = true).
Proof.
  destruct (solver (self w)) as [s|] eqn:Hs.
  2: { unfold check_validity. rewrite bind_get_self, Hs. simpl.
       split; [done|]. split; [done|]. by intros (s & sol & ? & _). }
  destruct (solution (self w)) as [sol|] eqn:Hsol.
  - destruct (valid_pair api s sol) eqn:Hv.
    + rewrite (check_validity_ok api w s sol) by done. simpl.
      split; [done|]. split; [by eauto | done].
    + destruct (check_validity_fails api w s sol Hs Hsol Hv) as (e & -> & _). simpl.
      split; [done|]. split; [done|].
      intros (s' & sol' & Hs' & Hsol' & Hv'). congruence.
  - assert ((check_validity api w).2 = w /\ (check_validity api w).1 <> Val ()) as [H1 H2].
    { unfold check_validity. mstep. rewrite Hs.
      destruct (is_Solver s); simpl; [|done].
      destruct (is_valid api s) as [[] r]; simpl; [|done].
      by rewrite Hsol. }
    split; [done|]. split; [done|]. by intros (s' & sol' & _ & ? & _).
Qed.

(** What [write_F] does when there is a functional and line 432 finds the
    directory of the log. *)
Lemma write_F_exact mode w f sol :
  compute_F (self w) = Some f -> solution (self w) = Some sol ->
  openable w (F_path (self w)) = true ->
  write_F api mode w =
  (Val (),
   let st := f (sol_state sol) in
   let line := {| fl_time := sol_t sol;
                  fl_values := map (sum_F api st) (seq 0 (mF st)) |} in
   {| self := set_solution (Some (set_sol_state st sol)) (self w);
      fs_exists := {[F_path (self w)]} ∪ fs_exists w;
      fs_text := <[F_path (self w) :=
                     match mode with
                     | Truncate => []
                     | Append => default [] (fs_text w !! F_path (self w))
                     end ++ [line]]> (fs_text w);
      trace := trace w ++ [EvComputeF; EvWriteF (F_path (self w)) mode line] |}).
Proof.
  intros HF Hsol Hopen. unfold write_F. mstep. rewrite HF. simpl. rewrite Hsol. simpl.
  unfold write_line, openable in *. simpl. rewrite Hopen. by rewrite <- app_assoc.
Qed.

(** X14.  With a functional, and the directory of the functional log in
    place, [write_F()] (mode ['a']) adds one line to the log after those it
    holds, creating the log if it is missing, and leaves the other text
    files of the controller alone; the line carries the solution time and
    [mF] values. *)
Theorem write_F_appends w f sol :
  compute_F (self w) = Some f -> solution (self w) = Some sol ->
  openable w (F_path (self w)) = true ->
  exists line w',
    write_F api Append w = (Val (), w') /\
    fs_text w' !! F_path (self w)
      = Some (default [] (fs_text w !! F_path (self w)) ++ [line]) /\
    (forall p, p <> F_path (self w) -> fs_text w' !! p = fs_text w !! p) /\
    fl_time line = sol_t sol /\
    length (fl_values line) = mF (f (sol_state sol)).
Proof.
  intros HF Hsol Hopen. rewrite (write_F_exact Append w f sol) by done.
  eexists _, _. split; [reflexivity|]. cbv zeta. simpl.
  split; [by rewrite lookup_insert_eq|].
  split; [by intros p Hp; rewrite lookup_insert_ne|].
  split; [done|]. simpl. by rewrite length_map, length_seq.
Qed.

(** X15.  With a functional, and the directory of the functional log in
    place, [write_F('w')] followed by [write_F()] leaves a functional log
    of exactly two lines, whatever it held before. *)
Theorem write_F_truncate_then_append w f sol :
  compute_F (self w) = Some f -> solution (self w) = Some sol ->
  openable w (F_path (self w)) = true ->
  exists l1 l2 w',
    bind (write_F api Truncate) (fun _ => write_F api Append) w = (Val (), w') /\
    fs_text w' !! F_path (self w) = Some [l1; l2].
Proof.
  intros HF Hsol Hopen. unfold bind. rewrite (write_F_exact Truncate w f sol) by done.
  cbv zeta.
  erewrite write_F_exact; [|exact HF|reflexivity|].
  2: { apply (openable_mono w); [|done]. simpl. apply union_subseteq_r. }
  eexists _, _, _. split; [reflexivity|]. cbv zeta. simpl.
  by rewrite lookup_insert_eq, lookup_insert_eq.
Qed.

(** X19.  With a functional but without the directory of the functional
    log, [write_F] raises the [IOError] of [open] after it has called
    [compute_F]: the state of the solution is the one the callback left,
    no line is written and no file is created. *)
Theorem write_F_missing_directory mode w f sol :
  compute_F (self w) = Some f -> solution (self w) = Some sol ->
  openable w (F_path (self w)) = false ->
  exists w',
    write_F api mode w = (Raised (IOError (F_path (self w))), w') /\
    trace w' = trace w ++ [EvComputeF] /\
    solution (self w') = Some (set_sol_state (f (sol_state sol)) sol) /\
    fs_text w' = fs_text w /\ fs_exists w' = fs_exists w.
Proof.
  intros HF Hsol Hopen. unfold write_F. mstep. rewrite HF. simpl. rewrite Hsol. simpl.
  unfold write_line, openable in *. simpl. rewrite Hopen.
  eexists. split; [reflexivity|]. done.
Qed.

(** An index within the retained frames. *)
Lemma load_frame_found w (n : Z) :
  0 <= n < Z.of_nat (length (frames (self w))) ->
  exists f, frames (self w) !! Z.to_nat n = Some f /\ load_frame n w = (Val (Some f), w).
Proof.
  intros Hn. unfold load_frame. rewrite bind_get_self. unfold py_getitem.
  destruct (Z.leb_spec 0 n); [|lia].
  destruct (lookup_lt_is_Some_2 (frames (self w)) (Z.to_nat n)) as [f Hf]; [lia|].
  exists f. by rewrite Hf.
Qed.

(** X16.  [load_frame] never raises: for an index within the retained
    frames, counted from the end when negative, it returns that frame and
    does nothing else; for any other index it prints the message with the
    index and the number of frames and returns [None]. *)
Theorem load_frame_bounds w (n : Z) :
  let fr := frames (self w) in
  let len := Z.of_nat (length fr) in
  (0 <= n < len ->
   exists f, fr !! Z.to_nat n = Some f /\ load_frame n w = (Val (Some f), w)) /\
  (- len <= n < 0 ->
   exists f, fr !! Z.to_nat (len + n) = Some f /\ load_frame n w = (Val (Some f), w)) /\
  (len <= n \/ n < - len ->
   exists w', load_frame n w = (Val None, w') /\
              trace w' = trace w ++ [EvPrint (cannot_plot n len)] /\
              self w' = self w).
Proof.
  cbv zeta. split; [apply load_frame_found|].
  unfold load_frame. rewrite bind_get_self. unfold py_getitem.
  split.
  - intros Hn. destruct (Z.leb_spec 0 n); [lia|].
    destruct (Z.leb_spec (- Z.of_nat (length (frames (self w)))) n); [|lia].
    destruct (lookup_lt_is_Some_2 (frames (self w))
                (Z.to_nat (Z.of_nat (length (frames (self w))) + n))) as [f Hf]; [lia|].
    exists f. by rewrite Hf.
  - intros Hn. destruct (Z.leb_spec 0 n).
    + rewrite lookup_ge_None_2 by lia. by eexists.
    + destruct (Z.leb_spec (- Z.of_nat (length (frames (self w)))) n); [lia|].
      by eexists.
Qed.

(** X17.  After a run with [keep_copy] that started without retained
    frames and returned a status, [load_frame] finds a frame at every index
    below the number of scheduled output times. *)
Theorem load_frame_after_run w st w' (n : Z) :
  run api w = (Val (Some st), w') ->
  keep_copy (self w) = true -> frames (self w) = [] ->
  exists sol ts,
    solution (self w) = Some sol /\ schedule api (self w) sol = Val ts /\
    (0 <= n < Z.of_nat (length ts) ->
     exists f, load_frame n w' = (Val (Some f), w')).
Proof.
  intros Hrun Hk Hfr.
  destruct (run_additions api w st w' Hrun)
    as (s & sol & t0 & ts' & evs & Hs & Hsol & Hr & Hsch & T & H).
  cbv zeta in H. destruct H as (_ & _ & Hlen & _).
  rewrite d_loop_frames in Hlen. simpl in Hlen.
  set (ts := t0 :: ts') in *.
  exists sol, ts. do 2 (split; [done|]). intros Hn.
  rewrite Hk, Hfr in Hlen. simpl in Hlen, Hn.
  destruct (load_frame_found w' n) as (f & _ & Hf); [lia | eauto].
Qed.

(** *** A new controller *)

Lemma string_app_assoc (a b d : string) : ((a +:+ b) +:+ d = a +:+ (b +:+ d))%string.
Proof.
  induction a as [|x a IH]; [done|].
  change (String x ((a +:+ b) +:+ d) = String x (a +:+ (b +:+ d))). by f_equal.
Qed.

Lemma outdir_no_sep (cwd : string) :
  OsPath.ends_with_sep (cwd +:+ "/_output") = false.
Proof.
  induction cwd as [|x [|y cwd] IH]; [done | done |].
  exact IH.
Qed.

(** X18.  For a controller as [__init__] leaves it, whatever the working
    directory, the derived-quantity directory is [<cwd>/_output/_p] and the
    functional log is [<cwd>/_output/F.txt]. *)
Theorem init_paths (out : list Qc) (cwd : string) :
  outdir_p (init (Payload:=Payload) (SolverSt:=SolverSt) out cwd)
    = (cwd +:+ "/_output/_p")%string /\
  F_path (init (Payload:=Payload) (SolverSt:=SolverSt) out cwd)
    = (cwd +:+ "/_output/F.txt")%string.
Proof.
  unfold outdir_p, F_path, OsPath.join. simpl.
  rewrite outdir_no_sep.
  destruct (decide ((cwd +:+ "/_output")%string = EmptyString)) as [H|_].
  { by destruct cwd. }
  by rewrite !string_app_assoc.
Qed.
End Methods.

(** ** The further properties on the examples *)

Lemma run_numbers_frames_witness :
  exists sol ts evs,
    solution (self (Demo.plain 2)) = Some sol /\
    schedule Demo.steady (self (Demo.plain 2)) sol = Val ts /\
    trace (run Demo.steady (Demo.plain 2)).2 = trace (Demo.plain 2) ++ evs /\
    logged evs = map (fun i => sol_start_frame sol + Z.of_nat i) (seq 0 (length ts)).
Proof.
  eapply (run_numbers_frames Demo.steady (Demo.plain 2) _
            (run Demo.steady (Demo.plain 2)).2).
  vm_compute. reflexivity.
Defined.

Lemma run_writes_main_snapshots_witness :
  exists sol ts evs,
    solution (self (Demo.plain 2)) = Some sol /\
    schedule Demo.steady (self (Demo.plain 2)) sol = Val ts /\
    trace (run Demo.steady (Demo.plain 2)).2 = trace (Demo.plain 2) ++ evs /\
    main_paths evs =
      if output_disabled (self (Demo.plain 2)) then []
      else map (fun i => (sol_start_frame sol + Z.of_nat i, outdir (self (Demo.plain 2))))
             (seq 0 (length ts)).
Proof.
  eapply (run_writes_main_snapshots Demo.steady (Demo.plain 2) _
            (run Demo.steady (Demo.plain 2)).2).
  vm_compute. reflexivity.
Defined.

Lemma run_retains_frames_witness :
  exists sol ts sol',
    solution (self Demo.keeping) = Some sol /\
    schedule Demo.steady (self Demo.keeping) sol = Val ts /\
    length (frames (self (run Demo.steady Demo.keeping).2)) =
      (length (frames (self Demo.keeping))
       + if keep_copy (self Demo.keeping) then length ts else 0)%nat /\
    solution (self (run Demo.steady Demo.keeping).2) = Some sol' /\
    sol_start_frame sol' = Z.of_nat (length (frames (self (run Demo.steady Demo.keeping).2))).
Proof.
  eapply (run_retains_frames Demo.steady Demo.keeping _ (run Demo.steady Demo.keeping).2).
  vm_compute. reflexivity.
Defined.

Lemma run_targets_schedule_tail_witness :
  exists sol ts evs,
    solution (self (Demo.plain 2)) = Some sol /\
    schedule Demo.steady (self (Demo.plain 2)) sol = Val ts /\
    trace (run Demo.steady (Demo.plain 2)).2 = trace (Demo.plain 2) ++ evs /\
    targets evs = map Some (tail ts).
Proof.
  eapply (run_targets_schedule_tail Demo.steady (Demo.plain 2) _
            (run Demo.steady (Demo.plain 2)).2).
  - vm_compute. reflexivity.
  - simpl. lia.
Defined.

Lemma run_style_C_steps_witness :
  exists sol evs,
    solution (self Demo.stepping) = Some sol /\
    trace (run Demo.steady Demo.stepping).2 = trace Demo.stepping ++ evs /\
    1 <= num_output_times (self Demo.stepping) + 1 - sol_start_frame sol /\
    targets evs =
      replicate (Z.to_nat (num_output_times (self Demo.stepping) - sol_start_frame sol)
                 * Z.to_nat (nstepout (self Demo.stepping))) None.
Proof.
  eapply (run_style_C_steps Demo.steady Demo.stepping _ (run Demo.steady Demo.stepping).2).
  - vm_compute. reflexivity.
  - reflexivity.
Defined.

Lemma run_functional_log_length_witness :
  exists sol ts lines,
    solution (self Demo.gauged) = Some sol /\
    schedule Demo.steady (self Demo.gauged) sol = Val ts /\
    fs_text (run Demo.steady Demo.gauged).2 !! F_path (self Demo.gauged) = Some lines /\
    length lines = length ts.
Proof.
  eapply (run_functional_log_length Demo.steady Demo.gauged _
            (run Demo.steady Demo.gauged).2 Demo.bump).
  - vm_compute. reflexivity.
  - reflexivity.
Defined.

Lemma disabled_output_never_writes_witness :
  exists evs,
    trace (run Demo.steady Demo.silent).2 = trace Demo.silent ++ evs /\
    writes evs = [] /\ ~ In EvComputeP evs.
Proof. apply (disabled_output_never_writes Demo.steady Demo.silent). reflexivity. Defined.

Lemma no_functional_no_log_witness :
  fs_text (run Demo.steady (Demo.plain 2)).2 = fs_text (Demo.plain 2) /\
  exists evs,
    trace (run Demo.steady (Demo.plain 2)).2 = trace (Demo.plain 2) ++ evs /\
    flines evs = [] /\ ~ In EvComputeF evs.
Proof. apply (no_functional_no_log Demo.steady (Demo.plain 2)). reflexivity. Defined.

Lemma no_keep_copy_no_frames_witness :
  frames (self (run Demo.steady (Demo.plain 2)).2) = frames (self (Demo.plain 2)) /\
  exists evs,
    trace (run Demo.steady (Demo.plain 2)).2 = trace (Demo.plain 2) ++ evs /\
    ~ In EvKeepCopy evs.
Proof. apply (no_keep_copy_no_frames Demo.steady (Demo.plain 2)). reflexivity. Defined.

Lemma write_calls_conform_witness :
  exists evs,
    trace (run Demo.steady Demo.gauged).2 = trace Demo.gauged ++ evs /\
    forall call, In call (writes evs) -> write_conforms (self Demo.gauged) call = true.
Proof. exact (write_calls_conform Demo.steady Demo.gauged). Defined.

Lemma evolve_calls_by_style_witness :
  exists evs,
    trace (run Demo.steady Demo.stepping).2 = trace Demo.stepping ++ evs /\
    forall tend, In tend (targets evs) ->
      if output_style (self Demo.stepping) <? 3 then is_Some tend else tend = None.
Proof. exact (evolve_calls_by_style Demo.steady Demo.stepping). Defined.

Lemma schedule_errors_witness :
  (run Demo.steady Demo.odd_style).1 = Raised (InvalidOutputStyle 7).
Proof.
  apply (proj1 (schedule_errors Demo.steady Demo.odd_style Demo.solver0
                  (Demo.solution0 (Np.of_Z 0) 0 []) eq_refl eq_refl eq_refl));
    simpl; lia.
Defined.

Lemma write_F_appends_witness :
  exists line w',
    write_F Demo.steady Append Demo.resumed = (Val (), w') /\
    fs_text w' !! F_path (self Demo.resumed)
      = Some (default [] (fs_text Demo.resumed !! F_path (self Demo.resumed)) ++ [line]) /\
    (forall p, p <> F_path (self Demo.resumed) ->
               fs_text w' !! p = fs_text Demo.resumed !! p) /\
    fl_time line = Q2Qc (1 # 2) /\
    length (fl_values line) = mF (Demo.bump (sol_state (Demo.solution0 (Q2Qc (1 # 2)) 2 []))).
Proof.
  apply (write_F_appends Demo.steady Demo.resumed Demo.bump
           (Demo.solution0 (Q2Qc (1 # 2)) 2 []));
    [reflexivity | reflexivity | vm_compute; reflexivity].
Defined.

Lemma write_F_truncate_then_append_witness :
  exists l1 l2 w',
    bind (write_F Demo.steady Truncate) (fun _ => write_F Demo.steady Append) Demo.resumed
      = (Val (), w') /\
    fs_text w' !! F_path (self Demo.resumed) = Some [l1; l2].
Proof.
  apply (write_F_truncate_then_append Demo.steady Demo.resumed Demo.bump
           (Demo.solution0 (Q2Qc (1 # 2)) 2 []));
    [reflexivity | reflexivity | vm_compute; reflexivity].
Defined.

Lemma load_frame_bounds_witness :
  exists f,
    frames (self (run Demo.steady Demo.keeping).2) !! Z.to_nat 1 = Some f /\
    load_frame 1 (run Demo.steady Demo.keeping).2
      = (Val (Some f), (run Demo.steady Demo.keeping).2).
Proof.
  apply (proj1 (load_frame_bounds (run Demo.steady Demo.keeping).2 1)).
  split; [vm_compute; intros H; discriminate H | vm_compute; reflexivity].
Defined.

Lemma load_frame_after_run_witness :
  exists sol ts,
    solution (self Demo.keeping) = Some sol /\
    schedule Demo.steady (self Demo.keeping) sol = Val ts /\
    (0 <= 2 < Z.of_nat (length ts) ->
     exists f, load_frame 2 (run Demo.steady Demo.keeping).2
               = (Val (Some f), (run Demo.steady Demo.keeping).2)).
Proof.
  eapply (load_frame_after_run Demo.steady Demo.keeping _
            (run Demo.steady Demo.keeping).2 2).
  - vm_compute. reflexivity.
  - reflexivity.
  - reflexivity.
Defined.

Lemma write_F_missing_directory_witness :
  exists w',
    write_F Demo.steady Append (Demo.unlogged 2)
      = (Raised (IOError (F_path (self (Demo.unlogged 2)))), w') /\
    trace w' = trace (Demo.unlogged 2) ++ [EvComputeF] /\
    solution (self w')
      = Some (set_sol_state (Demo.bump (sol_state (Demo.solution0 (Np.of_Z 0) 0 [])))
                (Demo.solution0 (Np.of_Z 0) 0 [])) /\
    fs_text w' = fs_text (Demo.unlogged 2) /\ fs_exists w' = fs_exists (Demo.unlogged 2).
Proof.
  apply (write_F_missing_directory Demo.steady Append (Demo.unlogged 2) Demo.bump
           (Demo.solution0 (Np.of_Z 0) 0 []));
    [reflexivity | reflexivity | vm_compute; reflexivity].
Defined.

